(** * Typed keymaster tags: a shallow embedding of [keymaster_tags.h]

    The header [keymaster/4.0/support/include/keymasterV4_0/keymaster_tags.h]
    binds every keymaster [Tag] to the member of [KeyParameter] that carries
    its value, builds parameters with [Authorization], reads them back with
    [authorizationValue], and compares them with [operator==].

    Conventions of the embedding.
    - [Tag] and [TagType] are [enum class ... : uint32_t]; a value of either
      is its numeric code, a [Z] in [0, 2^32).
    - [KeyParameter] is [{ Tag tag; union IntegerParams f; hidl_vec<uint8_t>
      blob; }].  The union is one 8-byte cell: every member of [f] starts at
      offset 0, so [f] is modelled by the little-endian value of the cell and
      a member of width [w] is its low [w] bits.
    - A declaration [KeyParameter param;] leaves [tag] and [f] indeterminate:
      the functions that contain such a declaration take the prior contents
      of the storage as an explicit argument.
    - An argument of [Authorization] carries its static C++ type: a scoped
      enumeration, [bool], an integer type or the byte vector.  The
      [static_assert] on [std::is_convertible] and the converting assignment
      are modelled on those types.
    - A template instantiation that the compiler rejects ([static_assert],
      no viable overload) is [None]. *)

From Stdlib Require Import ZArith List Bool Lia.
From Stdlib Require Import Strings.Byte.
Import ListNotations.
Local Open Scope Z_scope.

(** ** The enumerations *)

(** Modelled from the spec: [enum class TagType : uint32_t] is declared in the
    keymaster 4.0 interface definition, which is not part of the sources at
    hand.  The category of a tag is "a fixed bit-pattern embedded in the
    tag's numeric value (the top bits of the tag's integer encoding)"; the
    header extracts it with the mask [0xf0000000], so a category is a
    multiple of [2^28].  The enumerators are those of the interface. *)
Module TagType.
Definition INVALID   : Z := Z.shiftl 0 28.
Definition ENUM      : Z := Z.shiftl 1 28.
Definition ENUM_REP  : Z := Z.shiftl 2 28.
Definition UINT      : Z := Z.shiftl 3 28.
Definition UINT_REP  : Z := Z.shiftl 4 28.
Definition ULONG     : Z := Z.shiftl 5 28.
Definition DATE      : Z := Z.shiftl 6 28.
Definition BOOL      : Z := Z.shiftl 7 28.
Definition BIGNUM    : Z := Z.shiftl 8 28.
Definition BYTES     : Z := Z.shiftl 9 28.
Definition ULONG_REP : Z := Z.shiftl 10 28.

Definition enumerators : list Z :=
  [INVALID; ENUM; ENUM_REP; UINT; UINT_REP; ULONG; DATE; BOOL; BIGNUM;
   BYTES; ULONG_REP].
End TagType.

(** Modelled from the spec: [enum class Tag : uint32_t], the "fixed, closed
    enumeration" of tags, is declared in the keymaster 4.0 interface
    definition, which is not part of the sources at hand.  Each enumerator is
    [TagType | number]; the names are those the header uses (its typed-tag
    declarations and the case labels of [operator==]), and the category of
    each is the one under which [operator==] lists it ([INVALID] apart, whose
    code is zero; [USER_SECURE_ID] is the repeated long, and [PURPOSE],
    [BLOCK_MODE], [DIGEST] and [PADDING] are repeated enumerations). *)
Module Tag.
Definition INVALID                 : Z := Z.lor TagType.INVALID 0.
Definition PURPOSE                 : Z := Z.lor TagType.ENUM_REP 1.
Definition ALGORITHM               : Z := Z.lor TagType.ENUM 2.
Definition KEY_SIZE                : Z := Z.lor TagType.UINT 3.
Definition BLOCK_MODE              : Z := Z.lor TagType.ENUM_REP 4.
Definition DIGEST                  : Z := Z.lor TagType.ENUM_REP 5.
Definition PADDING                 : Z := Z.lor TagType.ENUM_REP 6.
Definition CALLER_NONCE            : Z := Z.lor TagType.BOOL 7.
Definition MIN_MAC_LENGTH          : Z := Z.lor TagType.UINT 8.
Definition EC_CURVE                : Z := Z.lor TagType.ENUM 10.
Definition RSA_PUBLIC_EXPONENT     : Z := Z.lor TagType.ULONG 200.
Definition INCLUDE_UNIQUE_ID       : Z := Z.lor TagType.BOOL 202.
Definition BLOB_USAGE_REQUIREMENTS : Z := Z.lor TagType.ENUM 301.
Definition BOOTLOADER_ONLY         : Z := Z.lor TagType.BOOL 302.
Definition ROLLBACK_RESISTANCE     : Z := Z.lor TagType.BOOL 303.
Definition HARDWARE_TYPE           : Z := Z.lor TagType.ENUM 304.
Definition ACTIVE_DATETIME         : Z := Z.lor TagType.DATE 400.
Definition ORIGINATION_EXPIRE_DATETIME : Z := Z.lor TagType.DATE 401.
Definition USAGE_EXPIRE_DATETIME   : Z := Z.lor TagType.DATE 402.
Definition MIN_SECONDS_BETWEEN_OPS : Z := Z.lor TagType.UINT 403.
Definition MAX_USES_PER_BOOT       : Z := Z.lor TagType.UINT 404.
Definition USER_ID                 : Z := Z.lor TagType.UINT 501.
Definition USER_SECURE_ID          : Z := Z.lor TagType.ULONG_REP 502.
Definition NO_AUTH_REQUIRED        : Z := Z.lor TagType.BOOL 503.
Definition USER_AUTH_TYPE          : Z := Z.lor TagType.ENUM 504.
Definition AUTH_TIMEOUT            : Z := Z.lor TagType.UINT 505.
Definition ALLOW_WHILE_ON_BODY     : Z := Z.lor TagType.BOOL 506.
Definition TRUSTED_USER_PRESENCE_REQUIRED : Z := Z.lor TagType.BOOL 507.
Definition TRUSTED_CONFIRMATION_REQUIRED  : Z := Z.lor TagType.BOOL 508.
Definition UNLOCKED_DEVICE_REQUIRED : Z := Z.lor TagType.BOOL 509.
Definition APPLICATION_ID          : Z := Z.lor TagType.BYTES 601.
Definition APPLICATION_DATA        : Z := Z.lor TagType.BYTES 700.
Definition CREATION_DATETIME       : Z := Z.lor TagType.DATE 701.
Definition ORIGIN                  : Z := Z.lor TagType.ENUM 702.
Definition ROOT_OF_TRUST           : Z := Z.lor TagType.BYTES 704.
Definition OS_VERSION              : Z := Z.lor TagType.UINT 705.
Definition OS_PATCHLEVEL           : Z := Z.lor TagType.UINT 706.
Definition UNIQUE_ID               : Z := Z.lor TagType.BYTES 707.
Definition ATTESTATION_CHALLENGE   : Z := Z.lor TagType.BYTES 708.
Definition ATTESTATION_APPLICATION_ID : Z := Z.lor TagType.BYTES 709.
Definition ATTESTATION_ID_BRAND    : Z := Z.lor TagType.BYTES 710.
Definition ATTESTATION_ID_DEVICE   : Z := Z.lor TagType.BYTES 711.
Definition ATTESTATION_ID_PRODUCT  : Z := Z.lor TagType.BYTES 712.
Definition ATTESTATION_ID_SERIAL   : Z := Z.lor TagType.BYTES 713.
Definition ATTESTATION_ID_IMEI     : Z := Z.lor TagType.BYTES 714.
Definition ATTESTATION_ID_MEID     : Z := Z.lor TagType.BYTES 715.
Definition ATTESTATION_ID_MANUFACTURER : Z := Z.lor TagType.BYTES 716.
Definition ATTESTATION_ID_MODEL    : Z := Z.lor TagType.BYTES 717.
Definition VENDOR_PATCHLEVEL       : Z := Z.lor TagType.UINT 718.
Definition BOOT_PATCHLEVEL         : Z := Z.lor TagType.UINT 719.
Definition ASSOCIATED_DATA         : Z := Z.lor TagType.BYTES 1000.
Definition NONCE                   : Z := Z.lor TagType.BYTES 1001.
Definition MAC_LENGTH              : Z := Z.lor TagType.UINT 1003.
Definition RESET_SINCE_ID_ROTATION : Z := Z.lor TagType.BOOL 1004.
Definition CONFIRMATION_TOKEN      : Z := Z.lor TagType.BYTES 1005.

(** The closed tag set: every enumerator of [Tag]. *)
Definition enumerators : list Z :=
  [INVALID; PURPOSE; ALGORITHM; KEY_SIZE; BLOCK_MODE; DIGEST; PADDING;
   CALLER_NONCE; MIN_MAC_LENGTH; EC_CURVE; RSA_PUBLIC_EXPONENT;
   INCLUDE_UNIQUE_ID; BLOB_USAGE_REQUIREMENTS; BOOTLOADER_ONLY;
   ROLLBACK_RESISTANCE; HARDWARE_TYPE; ACTIVE_DATETIME;
   ORIGINATION_EXPIRE_DATETIME; USAGE_EXPIRE_DATETIME;
   MIN_SECONDS_BETWEEN_OPS; MAX_USES_PER_BOOT; USER_ID; USER_SECURE_ID;
   NO_AUTH_REQUIRED; USER_AUTH_TYPE; AUTH_TIMEOUT; ALLOW_WHILE_ON_BODY;
   TRUSTED_USER_PRESENCE_REQUIRED; TRUSTED_CONFIRMATION_REQUIRED;
   UNLOCKED_DEVICE_REQUIRED; APPLICATION_ID; APPLICATION_DATA;
   CREATION_DATETIME; ORIGIN; ROOT_OF_TRUST; OS_VERSION; OS_PATCHLEVEL;
   UNIQUE_ID; ATTESTATION_CHALLENGE; ATTESTATION_APPLICATION_ID;
   ATTESTATION_ID_BRAND; ATTESTATION_ID_DEVICE; ATTESTATION_ID_PRODUCT;
   ATTESTATION_ID_SERIAL; ATTESTATION_ID_IMEI; ATTESTATION_ID_MEID;
   ATTESTATION_ID_MANUFACTURER; ATTESTATION_ID_MODEL; VENDOR_PATCHLEVEL;
   BOOT_PATCHLEVEL; ASSOCIATED_DATA; NONCE; MAC_LENGTH;
   RESET_SINCE_ID_ROTATION; CONFIRMATION_TOKEN].
End Tag.

(** Tag codes the header defines outside the enumeration (as [int32_t]
    constants), for keys that still carry them. *)
Definition KM_TAG_DIGEST_OLD  : Z := Z.lor TagType.ENUM 5.
Definition KM_TAG_PADDING_OLD : Z := Z.lor TagType.ENUM 7.
Definition KM_TAG_FBE_ICE     : Z := Z.lor TagType.BOOL 16201.
Definition KM_TAG_KEY_TYPE    : Z := Z.lor TagType.UINT 16202.

(** ** Category derivation and typed tags *)

(** [constexpr TagType typeFromTag(Tag tag)]: the tag masked with
    [0xf0000000]. *)
Definition typeFromTag (tag : Z) : Z := Z.land tag 0xf0000000.

(** [template <TagType tag_type, Tag tag> struct TypedTag]: the two template
    arguments.  The struct has no data member. *)
Record TypedTag : Type := mkTypedTag { tag_type : Z; tag_of : Z }.

(** The constructor [TypedTag()] with its [static_assert(typeFromTag(tag) ==
    tag_type)]: a mismatched pair does not compile. *)
Definition TypedTag_ctor (tt : Z) (t : Z) : option TypedTag :=
  if typeFromTag t =? tt then Some (mkTypedTag tt t) else None.

(** [Tag2TypedTag<tag>::type] is [TypedTag<typeFromTag(tag), tag>]. *)
Definition Tag2TypedTag (t : Z) : TypedTag := mkTypedTag (typeFromTag t) t.

(** [DECLARE_TYPED_TAG(name)]: the type [TAG_name_t] and its instance
    [TAG_name], which runs the constructor. *)
Definition DECLARE_TYPED_TAG (t : Z) : option TypedTag :=
  TypedTag_ctor (tag_type (Tag2TypedTag t)) (tag_of (Tag2TypedTag t)).

(** [operator Tag() const { return tag; }] *)
Definition to_Tag (ttag : TypedTag) : Z := tag_of ttag.

(** [int32_t maskedTag() { return tag & 0x0FFFFFFF; }] *)
Definition maskedTag (ttag : TypedTag) : Z := Z.land (tag_of ttag) 0x0FFFFFFF.

(** The tags for which the header declares a typed tag, in its order. *)
Definition declared_typed_tags : list Z :=
  [Tag.ACTIVE_DATETIME; Tag.ALGORITHM; Tag.ALLOW_WHILE_ON_BODY;
   Tag.APPLICATION_DATA; Tag.APPLICATION_ID; Tag.ASSOCIATED_DATA;
   Tag.ATTESTATION_APPLICATION_ID; Tag.ATTESTATION_CHALLENGE;
   Tag.AUTH_TIMEOUT; Tag.BLOB_USAGE_REQUIREMENTS; Tag.BLOCK_MODE;
   Tag.BOOTLOADER_ONLY; Tag.BOOT_PATCHLEVEL; Tag.CALLER_NONCE;
   Tag.CONFIRMATION_TOKEN; Tag.CREATION_DATETIME; Tag.DIGEST; Tag.EC_CURVE;
   Tag.HARDWARE_TYPE; Tag.INCLUDE_UNIQUE_ID; Tag.INVALID; Tag.KEY_SIZE;
   Tag.MAC_LENGTH; Tag.MAX_USES_PER_BOOT; Tag.MIN_MAC_LENGTH;
   Tag.MIN_SECONDS_BETWEEN_OPS; Tag.NONCE; Tag.NO_AUTH_REQUIRED; Tag.ORIGIN;
   Tag.ORIGINATION_EXPIRE_DATETIME; Tag.OS_PATCHLEVEL; Tag.OS_VERSION;
   Tag.PADDING; Tag.PURPOSE; Tag.RESET_SINCE_ID_ROTATION;
   Tag.ROLLBACK_RESISTANCE; Tag.ROOT_OF_TRUST; Tag.RSA_PUBLIC_EXPONENT;
   Tag.TRUSTED_CONFIRMATION_REQUIRED; Tag.TRUSTED_USER_PRESENCE_REQUIRED;
   Tag.UNIQUE_ID; Tag.UNLOCKED_DEVICE_REQUIRED; Tag.USAGE_EXPIRE_DATETIME;
   Tag.USER_AUTH_TYPE; Tag.USER_ID; Tag.USER_SECURE_ID;
   Tag.VENDOR_PATCHLEVEL].

(** ** The parameter and its members *)

(** Modelled from the spec: [struct KeyParameter] and its union
    [IntegerParams] are declared in the keymaster 4.0 interface definition,
    which is not part of the sources at hand.  A parameter is "a [tag] field
    (one Tag) plus a union-like payload" whose slots are a "32-bit integer,
    64-bit integer, date-time timestamp, enumerated code, byte sequence" and
    the boolean marker.  [f] is the 8-byte union cell, [blob] the byte
    vector beside it. *)
Record KeyParameter : Type := mkKeyParameter {
  tag  : Z;
  f    : Z;
  blob : list byte
}.

(** The members of [KeyParameter] that the header names: [f.algorithm],
    ..., [f.dateTime] inside the union, and [blob]. *)
Inductive Member : Type :=
| f_algorithm | f_blockMode | f_paddingMode | f_digest | f_ecCurve
| f_origin | f_keyBlobUsageRequirements | f_purpose
| f_hardwareAuthenticatorType | f_hardwareType
| f_boolValue | f_integer | f_longInteger | f_dateTime
| m_blob.

(** The shape of a member's C++ type: [bool], an unsigned integer of the
    given width (every enumeration of the interface is a [uint32_t]), or
    [hidl_vec<uint8_t>]. *)
Inductive CType : Type :=
| c_bool
| c_uint (bits : Z)
| c_bytes.

(** Modelled from the spec: the declared type of each member, from the same
    missing declaration of [KeyParameter]. *)
Definition member_type (m : Member) : CType :=
  match m with
  | f_boolValue => c_bool
  | f_longInteger | f_dateTime => c_uint 64
  | m_blob => c_bytes
  | _ => c_uint 32
  end.

(** A value of one of those types. *)
Inductive Value : Type :=
| VBool (b : bool)
| VUInt (n : Z)
| VBytes (bs : list byte).

(** [v] is a value of a type of shape [ty]: an unsigned integer is within
    its width. *)
Definition has_type (v : Value) (ty : CType) : bool :=
  match v, ty with
  | VBool _, c_bool => true
  | VUInt n, c_uint w => (0 <=? n) && (n <? 2 ^ w)
  | VBytes _, c_bytes => true
  | _, _ => false
  end.

(** The low [w] bits of the union cell: what a member of width [w] holds. *)
Definition low (w : Z) (cell : Z) : Z := Z.land cell (Z.ones w).

(** Writing [n] to a member of width [w] replaces the low [w] bits of the
    cell and leaves the others. *)
Definition put (w : Z) (n : Z) (cell : Z) : Z :=
  Z.lor (Z.ldiff cell (Z.ones w)) (low w n).

(** Reading a member: [param.member] as an rvalue. *)
Definition load (m : Member) (param : KeyParameter) : Value :=
  match member_type m with
  | c_bool => VBool (negb (low 8 (f param) =? 0))
  | c_uint w => VUInt (low w (f param))
  | c_bytes => VBytes (blob param)
  end.

Definition store_bool (b : bool) (param : KeyParameter) : KeyParameter :=
  mkKeyParameter (tag param) (put 8 (Z.b2z b) (f param)) (blob param).

Definition store_uint (w : Z) (n : Z) (param : KeyParameter) : KeyParameter :=
  mkKeyParameter (tag param) (put w n (f param)) (blob param).

Definition store_bytes (bs : list byte) (param : KeyParameter) : KeyParameter :=
  mkKeyParameter (tag param) (f param) bs.

Definition store_tag (t : Z) (param : KeyParameter) : KeyParameter :=
  mkKeyParameter t (f param) (blob param).

(** Assigning to a member: [param.member = v].  An assignment of a value of
    another type is ill-typed. *)
Definition store (m : Member) (v : Value) (param : KeyParameter)
  : option KeyParameter :=
  match member_type m, v with
  | c_bool, VBool b => Some (store_bool b param)
  | c_uint w, VUInt n => Some (store_uint w n param)
  | c_bytes, VBytes bs => Some (store_bytes bs param)
  | _, _ => None
  end.

(** What the storage of a local variable held before its declaration. *)
Record Indeterminate : Type := mkIndeterminate { old_tag : Z; old_f : Z }.

(** [KeyParameter param;]: [tag] and [f] keep whatever the storage held,
    [blob] is default-constructed (empty). *)
Definition KeyParameter_decl (mem : Indeterminate) : KeyParameter :=
  mkKeyParameter (low 32 (old_tag mem)) (low 64 (old_f mem)) [].

(** ** Declared types, arguments and implicit conversion *)

(** The scoped enumerations ([enum class ... : uint32_t]) that are the types
    of the enumerated members of the union. *)
Inductive Enum : Type :=
| Algorithm | BlockMode | PaddingMode | Digest | EcCurve | KeyOrigin
| KeyBlobUsageRequirements | KeyPurpose | HardwareAuthenticatorType
| SecurityLevel.

Definition Enum_eq_dec (x y : Enum) : {x = y} + {x <> y}.
Proof. decide equality. Defined.

(** The C++ types the embedding knows: a scoped enumeration, [bool], an
    integer type of a signedness and width, and [hidl_vec<uint8_t>]. *)
Inductive CppType : Type :=
| T_enum (e : Enum)
| T_bool
| T_integer (signed : bool) (bits : Z)
| T_bytes.

(** Modelled from the spec: the declared C++ type of each member,
    [decltype(param.field_name)], from the missing declaration of
    [KeyParameter]: "each [enumerated-value tag] carries a distinct
    enumeration type", the integer slot is a [uint32_t], the long and
    date-time slots are [uint64_t]. *)
Definition decl_type (m : Member) : CppType :=
  match m with
  | f_algorithm => T_enum Algorithm
  | f_blockMode => T_enum BlockMode
  | f_paddingMode => T_enum PaddingMode
  | f_digest => T_enum Digest
  | f_ecCurve => T_enum EcCurve
  | f_origin => T_enum KeyOrigin
  | f_keyBlobUsageRequirements => T_enum KeyBlobUsageRequirements
  | f_purpose => T_enum KeyPurpose
  | f_hardwareAuthenticatorType => T_enum HardwareAuthenticatorType
  | f_hardwareType => T_enum SecurityLevel
  | f_boolValue => T_bool
  | f_integer => T_integer false 32
  | f_longInteger | f_dateTime => T_integer false 64
  | m_blob => T_bytes
  end.

(** The storage shape of a C++ type. *)
Definition shape (ty : CppType) : CType :=
  match ty with
  | T_enum _ => c_uint 32
  | T_bool => c_bool
  | T_integer _ w => c_uint w
  | T_bytes => c_bytes
  end.

(** An argument of a call, with its static type: an enumerator or variable
    of a scoped enumeration (by its code), a [bool], an integer of some
    integer type (by its mathematical value), or a byte vector.  Arguments
    of floating or other class types are outside the embedding. *)
Inductive Arg : Type :=
| arg_enum (e : Enum) (code : Z)
| arg_bool (b : bool)
| arg_int (signed : bool) (bits : Z) (n : Z)
| arg_bytes (bs : list byte).

Definition type_of (a : Arg) : CppType :=
  match a with
  | arg_enum e _ => T_enum e
  | arg_bool _ => T_bool
  | arg_int s w _ => T_integer s w
  | arg_bytes _ => T_bytes
  end.

(** [std::is_convertible<From, To>::value] on those types: a scoped
    enumeration converts implicitly to itself only, and nothing else
    converts to it; [bool] and the integer types convert to one another,
    narrowing included; neither converts to or from the byte vector.
    [hidl_vec<uint8_t>] is declared outside the sources at hand: of the
    conversions to it the embedding has the one from a byte vector, and no
    property below rests on another argument being refused for it. *)
Definition is_convertible (from to : CppType) : bool :=
  match from, to with
  | T_enum e, T_enum e' => if Enum_eq_dec e e' then true else false
  | (T_bool | T_integer _ _), (T_bool | T_integer _ _) => true
  | T_bytes, T_bytes => true
  | _, _ => false
  end.

(** The implicit conversion itself: the value of type [to] that the
    assignment [member = arg] stores.  An integer converts to an unsigned
    type modulo [2^bits] and to [bool] by comparison with zero; [bool]
    converts to 0 or 1. *)
Definition convert (to : CppType) (a : Arg) : option Value :=
  match to, a with
  | T_enum e, arg_enum e' code =>
      if Enum_eq_dec e' e then Some (VUInt (low 32 code)) else None
  | T_bool, arg_bool b => Some (VBool b)
  | T_bool, arg_int _ _ n => Some (VBool (negb (n =? 0)))
  | T_integer _ w, arg_bool b => Some (VUInt (Z.b2z b))
  | T_integer _ w, arg_int _ _ n => Some (VUInt (low w n))
  | T_bytes, arg_bytes bs => Some (VBytes bs)
  | _, _ => None
  end.

(** [member = arg] through the accessor's reference: conversion, then the
    store. *)
Definition assign (m : Member) (value : Arg) (param : KeyParameter)
  : option KeyParameter :=
  match convert (decl_type m) value with
  | Some v => store m v param
  | None => None
  end.

(** The argument of the member's own declared type that holds [v]. *)
Definition arg_of (m : Member) (v : Value) : Arg :=
  match decl_type m, v with
  | T_enum e, VUInt n => arg_enum e n
  | T_integer s w, VUInt n => arg_int s w n
  | _, VUInt n => arg_int false 64 n
  | _, VBool b => arg_bool b
  | _, VBytes bs => arg_bytes bs
  end.

(** ** Tag-to-member mapping *)

Definition TypedTag_eqb (a b : TypedTag) : bool :=
  if tag_type a =? tag_type b then tag_of a =? tag_of b else false.

(** [MAKE_TAG_VALUE_ACCESSOR(tag_type, field_name)]: one template per
    category, in the header's order. *)
Definition MAKE_TAG_VALUE_ACCESSOR : list (Z * Member) :=
  [(TagType.ULONG, f_longInteger);
   (TagType.ULONG_REP, f_longInteger);
   (TagType.DATE, f_dateTime);
   (TagType.UINT, f_integer);
   (TagType.UINT_REP, f_integer);
   (TagType.BOOL, f_boolValue);
   (TagType.BYTES, m_blob);
   (TagType.BIGNUM, m_blob)].

(** [MAKE_TAG_ENUM_VALUE_ACCESSOR(typed_tag, field_name)]: one overload per
    enumerated tag, on the type [decltype(typed_tag)]. *)
Definition MAKE_TAG_ENUM_VALUE_ACCESSOR : list (TypedTag * Member) :=
  [(Tag2TypedTag Tag.ALGORITHM, f_algorithm);
   (Tag2TypedTag Tag.BLOB_USAGE_REQUIREMENTS, f_keyBlobUsageRequirements);
   (Tag2TypedTag Tag.BLOCK_MODE, f_blockMode);
   (Tag2TypedTag Tag.DIGEST, f_digest);
   (Tag2TypedTag Tag.EC_CURVE, f_ecCurve);
   (Tag2TypedTag Tag.ORIGIN, f_origin);
   (Tag2TypedTag Tag.PADDING, f_paddingMode);
   (Tag2TypedTag Tag.PURPOSE, f_purpose);
   (Tag2TypedTag Tag.USER_AUTH_TYPE, f_hardwareAuthenticatorType);
   (Tag2TypedTag Tag.HARDWARE_TYPE, f_hardwareType)].

(** Overload resolution of [accessTagValue(ttag, param)]: the member it
    returns a reference to.  A non-template overload is preferred to a
    template; with neither, the call does not compile. *)
Definition accessTagValue (ttag : TypedTag) : option Member :=
  match find (fun e => TypedTag_eqb (fst e) ttag) MAKE_TAG_ENUM_VALUE_ACCESSOR with
  | Some e => Some (snd e)
  | None =>
      match find (fun e => fst e =? tag_type ttag) MAKE_TAG_VALUE_ACCESSOR with
      | Some e => Some (snd e)
      | None => None
      end
  end.

(** [TypedTag2ValueType<TypedTag<tag_type, tag>>::type]: the declared type
    of the mapped member. *)
Definition TypedTag2ValueType (ttag : TypedTag) : option CppType :=
  option_map decl_type (accessTagValue ttag).

(** ** Construction *)

(** [makeKeyParameter(ttag, value)]:
    [param.tag = tag; param.f.longInteger = 0;
     accessTagValue(ttag, param) = value;]. *)
Definition makeKeyParameter (mem : Indeterminate) (ttag : TypedTag)
    (value : Arg) : option KeyParameter :=
  let param := KeyParameter_decl mem in
  let param := store_tag (tag_of ttag) param in
  let param := store_uint 64 0 param in
  match accessTagValue ttag with
  | Some m => assign m value param
  | None => None
  end.

(** The boolean case, [makeKeyParameter(TypedTag<TagType::BOOL, tag>)]:
    [param.tag = tag; param.f.boolValue = true;]. *)
Definition makeKeyParameter_bool (mem : Indeterminate) (ttag : TypedTag)
  : KeyParameter :=
  let param := KeyParameter_decl mem in
  let param := store_tag (tag_of ttag) param in
  store_bool true param.

(** [Authorization(ttag, args...)] with its three [static_assert]s: a
    [BOOL] tag takes no argument; any other tag takes exactly one, whose
    type is implicitly convertible to the tag's value type.  The argument is
    then forwarded to [makeKeyParameter], whose assignment converts it. *)
Definition Authorization (mem : Indeterminate) (ttag : TypedTag)
    (args : list Arg) : option KeyParameter :=
  if tag_type ttag =? TagType.BOOL then
    match args with
    | [] => Some (makeKeyParameter_bool mem ttag)
    | _ => None
    end
  else
    match args with
    | [value] =>
        match TypedTag2ValueType ttag with
        | Some ty =>
            if is_convertible (type_of value) ty
            then makeKeyParameter mem ttag value
            else None
        | None => None
        end
    | _ => None
    end.

(** ** The optional-value wrapper *)

Section NullOr.
Context {internal_t : Type}.

(** [initializer_t::init()]: [nullptr] for a reference or a pointer, a
    default-constructed value otherwise. *)
Variable init : internal_t.

(** [class NullOr] with its two private members. *)
Record NullOr : Type := mkNullOr { value_ : internal_t; null_ : bool }.

(** [NullOr() : value_(initializer_t::init()), null_(true)] *)
Definition NullOr_null : NullOr := mkNullOr init true.

(** [NullOr(value) : value_(value), null_(false)] *)
Definition NullOr_of (v : internal_t) : NullOr := mkNullOr v false.

(** [bool isOk() const { return !null_; }] *)
Definition isOk (w : NullOr) : bool := negb (null_ w).

(** [NullOrOr(head, tail...)]: the one-argument overload returns [v] when
    it is valid and [{}] otherwise; the variadic one returns [head] when
    it is valid and recurses on the tail otherwise. *)
Fixpoint NullOrOr (head : NullOr) (tail : list NullOr) : NullOr :=
  match tail with
  | [] => if isOk head then head else NullOr_null
  | next :: rest => if isOk head then head else NullOrOr next rest
  end.

(** The receivers of the [isOk()] calls made by [NullOrOr(head, tail...)],
    in order: the same recursion, recording each wrapper it inspects. *)
Fixpoint NullOrOr_inspected (head : NullOr) (tail : list NullOr)
  : list NullOr :=
  match tail with
  | [] => [head]
  | next :: rest =>
      if isOk head then [head] else head :: NullOrOr_inspected next rest
  end.
End NullOr.

Arguments NullOr internal_t : clear implicits.

(** [value()] of a wrapper of a reference, [deref_t::deref(value_)] being
    [*value_]: undefined ([None]) on the null sentinel. *)
Definition value {A : Type} (w : NullOr (option A)) : option A := value_ w.

(** [authorizationValue(ttag, param)]:
    [if (tag != param.tag) return {}; return accessTagValue(ttag, param);].
    The wrapper is one of a [const] reference to the member. *)
Definition authorizationValue (ttag : TypedTag) (param : KeyParameter)
  : option (NullOr (option Value)) :=
  match accessTagValue ttag with
  | Some m =>
      Some (if negb (tag_of ttag =? tag param) then NullOr_null None
            else NullOr_of (Some (load m param)))
  | None => None
  end.

(** ** Equality *)

(** [operator==] of [hidl_vec<uint8_t>]: same size and same elements. *)
Fixpoint bytes_eqb (a b : list byte) : bool :=
  match a, b with
  | [], [] => true
  | x :: a', y :: b' => Byte.eqb x y && bytes_eqb a' b'
  | _, _ => false
  end.

(** The natural equality of two values of one type. *)
Definition Value_eqb (x y : Value) : bool :=
  match x, y with
  | VBool a, VBool b => Bool.eqb a b
  | VUInt a, VUInt b => a =? b
  | VBytes a, VBytes b => bytes_eqb a b
  | _, _ => false
  end.

(** What a group of case labels of [operator==] returns. *)
Inductive Branch : Type :=
| return_true
| return_eq (m : Member).

(** The [switch (a.tag)] of [operator==]: each group of case labels with its
    [return], in the order of the source. *)
Definition switch_cases : list (list Z * Branch) :=
  [ (* Boolean tags *)
    ([Tag.INVALID; Tag.CALLER_NONCE; Tag.INCLUDE_UNIQUE_ID;
      Tag.BOOTLOADER_ONLY; Tag.NO_AUTH_REQUIRED; Tag.ALLOW_WHILE_ON_BODY;
      Tag.UNLOCKED_DEVICE_REQUIRED; Tag.ROLLBACK_RESISTANCE;
      Tag.RESET_SINCE_ID_ROTATION; Tag.TRUSTED_CONFIRMATION_REQUIRED;
      Tag.TRUSTED_USER_PRESENCE_REQUIRED], return_true);
    (* Integer tags *)
    ([Tag.KEY_SIZE; Tag.MIN_MAC_LENGTH; Tag.MIN_SECONDS_BETWEEN_OPS;
      Tag.MAX_USES_PER_BOOT; Tag.OS_VERSION; Tag.OS_PATCHLEVEL;
      Tag.MAC_LENGTH; Tag.USER_ID; Tag.AUTH_TIMEOUT; Tag.VENDOR_PATCHLEVEL;
      Tag.BOOT_PATCHLEVEL], return_eq f_integer);
    (* Long integer tags *)
    ([Tag.RSA_PUBLIC_EXPONENT; Tag.USER_SECURE_ID], return_eq f_longInteger);
    (* Date-time tags *)
    ([Tag.ACTIVE_DATETIME; Tag.ORIGINATION_EXPIRE_DATETIME;
      Tag.USAGE_EXPIRE_DATETIME; Tag.CREATION_DATETIME],
     return_eq f_dateTime);
    (* Bytes tags *)
    ([Tag.APPLICATION_ID; Tag.APPLICATION_DATA; Tag.ROOT_OF_TRUST;
      Tag.UNIQUE_ID; Tag.ATTESTATION_CHALLENGE;
      Tag.ATTESTATION_APPLICATION_ID; Tag.ATTESTATION_ID_BRAND;
      Tag.ATTESTATION_ID_DEVICE; Tag.ATTESTATION_ID_PRODUCT;
      Tag.ATTESTATION_ID_SERIAL; Tag.ATTESTATION_ID_IMEI;
      Tag.ATTESTATION_ID_MEID; Tag.ATTESTATION_ID_MANUFACTURER;
      Tag.ATTESTATION_ID_MODEL; Tag.ASSOCIATED_DATA; Tag.CONFIRMATION_TOKEN;
      Tag.NONCE], return_eq m_blob);
    (* Enum tags *)
    ([Tag.PURPOSE], return_eq f_purpose);
    ([Tag.ALGORITHM], return_eq f_algorithm);
    ([Tag.BLOCK_MODE], return_eq f_blockMode);
    ([Tag.DIGEST], return_eq f_digest);
    ([Tag.PADDING], return_eq f_paddingMode);
    ([Tag.EC_CURVE], return_eq f_ecCurve);
    ([Tag.BLOB_USAGE_REQUIREMENTS], return_eq f_keyBlobUsageRequirements);
    ([Tag.USER_AUTH_TYPE], return_eq f_integer);
    ([Tag.ORIGIN], return_eq f_origin);
    ([Tag.HARDWARE_TYPE], return_eq f_hardwareType) ].

(** Does a group of case labels name [t]? *)
Definition has_label (t : Z) (group : list Z * Branch) : bool :=
  existsb (Z.eqb t) (fst group).

(** Dispatch of a [switch] without [default]: the branch of the group that
    names [t], or none, in which case control leaves the [switch]. *)
Definition switch (t : Z) (cases : list (list Z * Branch)) : option Branch :=
  option_map snd (find (has_label t) cases).

(** [bool operator==(const KeyParameter& a, const KeyParameter& b)] *)
Definition operator_eq (a b : KeyParameter) : bool :=
  if negb (tag a =? tag b) then false
  else
    match switch (tag a) switch_cases with
    | Some return_true => true
    | Some (return_eq m) => Value_eqb (load m a) (load m b)
    | None => false
    end.

(** ** The list of typed tags, and the default combinator *)

(** [using all_tags_t = MetaList<TAG_INVALID_t, TAG_KEY_SIZE_t, ...>]: the
    typed tags it lists, in its order. *)
Definition all_tags_t : list TypedTag :=
  map Tag2TypedTag
    [Tag.INVALID; Tag.KEY_SIZE; Tag.MAC_LENGTH; Tag.CALLER_NONCE;
     Tag.MIN_MAC_LENGTH; Tag.RSA_PUBLIC_EXPONENT; Tag.INCLUDE_UNIQUE_ID;
     Tag.ACTIVE_DATETIME; Tag.ORIGINATION_EXPIRE_DATETIME;
     Tag.USAGE_EXPIRE_DATETIME; Tag.MIN_SECONDS_BETWEEN_OPS;
     Tag.MAX_USES_PER_BOOT; Tag.USER_ID; Tag.USER_SECURE_ID;
     Tag.NO_AUTH_REQUIRED; Tag.AUTH_TIMEOUT; Tag.ALLOW_WHILE_ON_BODY;
     Tag.UNLOCKED_DEVICE_REQUIRED; Tag.APPLICATION_ID; Tag.APPLICATION_DATA;
     Tag.CREATION_DATETIME; Tag.ROLLBACK_RESISTANCE; Tag.HARDWARE_TYPE;
     Tag.ROOT_OF_TRUST; Tag.ASSOCIATED_DATA; Tag.NONCE; Tag.BOOTLOADER_ONLY;
     Tag.OS_VERSION; Tag.OS_PATCHLEVEL; Tag.UNIQUE_ID;
     Tag.ATTESTATION_CHALLENGE; Tag.ATTESTATION_APPLICATION_ID;
     Tag.RESET_SINCE_ID_ROTATION; Tag.PURPOSE; Tag.ALGORITHM;
     Tag.BLOCK_MODE; Tag.DIGEST; Tag.PADDING; Tag.BLOB_USAGE_REQUIREMENTS;
     Tag.ORIGIN; Tag.USER_AUTH_TYPE; Tag.EC_CURVE; Tag.BOOT_PATCHLEVEL;
     Tag.VENDOR_PATCHLEVEL; Tag.TRUSTED_CONFIRMATION_REQUIRED;
     Tag.TRUSTED_USER_PRESENCE_REQUIRED].

(** [reference_deref_t::deref(v)] is [*v]: undefined ([None]) on the null
    pointer. *)
Definition reference_deref_t {A : Type} (v : option A) : option A := v.

(** [value_pointer_deref_t::deref(v)] is [v]. *)
Definition value_pointer_deref_t {A : Type} (v : A) : option A := Some v.

(** [defaultOr(optional, def)]:
    [if (optional.isOk()) return optional.value(); return def;], where
    [value()] is [deref_t::deref(value_)]. *)
Definition defaultOr {internal_t ValueT : Type}
    (deref : internal_t -> option ValueT)
    (optional : NullOr internal_t) (def : ValueT) : option ValueT :=
  if isOk optional then deref (value_ optional) else Some def.

(** A wrapper of a reference as its two constructors make it: null with the
    null pointer, or valid with the address of an object. *)
Definition constructed {A : Type} (w : NullOr (option A)) : Prop :=
  w = NullOr_null None \/ exists x, w = NullOr_of (Some x).

(** ** Notions used to state the properties *)

(** The union cell that holds [v] in its low bits and zero above: [v]
    zero-extended to the eight bytes of the union.  A byte vector lives
    outside the union. *)
Definition zero_extended (v : Value) : Z :=
  match v with
  | VBool b => Z.b2z b
  | VUInt n => n
  | VBytes _ => 0
  end.

(** The byte vector of a parameter built from [v]. *)
Definition blob_of (v : Value) : list byte :=
  match v with
  | VBytes bs => bs
  | _ => []
  end.

(** The case labels of a [switch], all groups together. *)
Definition labels (cases : list (list Z * Branch)) : list Z :=
  concat (map fst cases).

(** Membership in a list of tag codes, decided. *)
Definition mem_tag (t : Z) (l : list Z) : bool := existsb (Z.eqb t) l.

(** The branch of [operator==] for [t] compares the member that the
    tag-to-member mapping gives [t], or a member of the union with the same
    type (and so the same storage); a [BOOL] tag has the branch that returns
    [true]. *)
Definition branch_agrees (t : Z) : bool :=
  match switch t switch_cases, accessTagValue (Tag2TypedTag t) with
  | Some return_true, Some _ => typeFromTag t =? TagType.BOOL
  | Some return_true, None => true
  | Some (return_eq m), Some m' =>
      negb (typeFromTag t =? TagType.BOOL) &&
      match member_type m, member_type m' with
      | c_bool, c_bool => true
      | c_uint w, c_uint w' => w =? w'
      | c_bytes, c_bytes => true
      | _, _ => false
      end
  | Some (return_eq _), None => false
  | None, _ => false
  end.

(** * Properties *)

(** ** Bits of the union cell *)

Lemma ones_testbit (w i : Z) :
  0 <= w -> 0 <= i -> Z.testbit (Z.ones w) i = (i <? w).
Proof.
  intros Hw Hi. destruct (Z.ltb_spec i w).
  - apply Z.ones_spec_low. lia.
  - apply Z.ones_spec_high. lia.
Qed.

Lemma low_testbit (w x i : Z) :
  0 <= w -> 0 <= i -> Z.testbit (low w x) i = Z.testbit x i && (i <? w).
Proof.
  intros Hw Hi. unfold low. now rewrite Z.land_spec, ones_testbit.
Qed.

Lemma put_testbit (w n cell i : Z) :
  0 <= w -> 0 <= i ->
  Z.testbit (put w n cell) i = if i <? w then Z.testbit n i else Z.testbit cell i.
Proof.
  intros Hw Hi. unfold put.
  rewrite Z.lor_spec, Z.ldiff_spec, low_testbit, ones_testbit by assumption.
  destruct (i <? w), (Z.testbit n i), (Z.testbit cell i); reflexivity.
Qed.

Lemma low_small (w n : Z) : 0 <= n < 2 ^ w -> low w n = n.
Proof.
  intros Hn. destruct (Z.le_gt_cases 0 w) as [Hw | Hw].
  - unfold low. rewrite Z.land_ones by assumption. now apply Z.mod_small.
  - rewrite Z.pow_neg_r in Hn by assumption. lia.
Qed.

Lemma low_range (w x : Z) : 0 <= w -> 0 <= low w x < 2 ^ w.
Proof.
  intros Hw. unfold low. rewrite Z.land_ones by assumption.
  apply Z.mod_pos_bound. now apply Z.pow_pos_nonneg.
Qed.

(** Reading a member after writing it gives what was written. *)
Lemma low_put (w n cell : Z) : 0 <= w -> low w (put w n cell) = low w n.
Proof.
  intros Hw. apply Z.bits_inj'. intros i Hi.
  rewrite !low_testbit, put_testbit by assumption.
  now destruct (i <? w); rewrite ?andb_false_r.
Qed.

(** Writing the widest member clears the whole cell. *)
Lemma put_64_zero (x : Z) : put 64 0 (low 64 x) = 0.
Proof.
  apply Z.bits_inj'. intros i Hi.
  rewrite put_testbit, low_testbit, Z.bits_0 by lia.
  destruct (i <? 64); [reflexivity | apply andb_false_r].
Qed.

(** A member written into a cleared cell is zero-extended. *)
Lemma put_zero (w n : Z) : put w n 0 = low w n.
Proof. unfold put. now rewrite Z.ldiff_0_l, Z.lor_0_l. Qed.

Lemma width_nonneg (w n : Z) : (0 <=? n) && (n <? 2 ^ w) = true -> 0 <= w.
Proof.
  intros H. apply andb_true_iff in H as [H0 H1].
  apply Z.leb_le in H0. apply Z.ltb_lt in H1.
  destruct (Z.le_gt_cases 0 w) as [Hw | Hw]; [assumption |].
  rewrite Z.pow_neg_r in H1 by assumption. lia.
Qed.

Lemma in_range (w n : Z) :
  (0 <=? n) && (n <? 2 ^ w) = true -> 0 <= n < 2 ^ w.
Proof.
  intros H. apply andb_true_iff in H as [H0 H1].
  apply Z.leb_le in H0. apply Z.ltb_lt in H1. lia.
Qed.

(** ** Members *)

Lemma bytes_eqb_refl (bs : list byte) : bytes_eqb bs bs = true.
Proof.
  induction bs as [| x bs IH]; [reflexivity |].
  cbn [bytes_eqb]. now rewrite (Byte.byte_dec_lb eq_refl), IH.
Qed.

Lemma bytes_eqb_eq (a b : list byte) : bytes_eqb a b = true <-> a = b.
Proof.
  split; [| intros ->; apply bytes_eqb_refl].
  revert b. induction a as [| x a IH]; intros [| y b] H;
    try reflexivity; try discriminate.
  cbn [bytes_eqb] in H. apply andb_true_iff in H as [Hx Hab].
  apply Byte.byte_dec_bl in Hx. apply IH in Hab. now subst.
Qed.

(** [Value_eqb] decides equality of values: it is the natural equality. *)
Lemma Value_eqb_eq (x y : Value) : Value_eqb x y = true <-> x = y.
Proof.
  destruct x as [a | a | a], y as [b | b | b]; cbn [Value_eqb];
    try (split; [discriminate | intros H; discriminate H]).
  - rewrite Bool.eqb_true_iff. split; [now intros -> | now intros [= ->]].
  - rewrite Z.eqb_eq. split; [now intros -> | now intros [= ->]].
  - rewrite bytes_eqb_eq. split; [now intros -> | now intros [= ->]].
Qed.

Lemma Value_eqb_refl (x : Value) : Value_eqb x x = true.
Proof. now apply Value_eqb_eq. Qed.

(** What a member reads depends on its type only: the members of the union
    that have one type share their storage. *)
Lemma load_same_type (m m' : Member) (param : KeyParameter) :
  member_type m = member_type m' -> load m param = load m' param.
Proof. unfold load. now intros ->. Qed.

(** A well-typed assignment is accepted, and the member then reads as the
    value assigned. *)
Lemma load_store (m : Member) (v : Value) (param : KeyParameter) :
  has_type v (member_type m) = true ->
  exists param', store m v param = Some param' /\
                 load m param' = v /\
                 tag param' = tag param.
Proof.
  unfold has_type, store, load.
  destruct (member_type m) as [| w |], v as [b | n | bs]; try discriminate;
    intros Hty.
  - eexists; split; [reflexivity |]. cbn [f tag store_bool]. split; [| reflexivity].
    rewrite low_put by lia. now destruct b.
  - eexists; split; [reflexivity |]. cbn [f tag store_uint]. split; [| reflexivity].
    rewrite low_put by (eapply width_nonneg; eassumption).
    now rewrite low_small by (now apply in_range).
  - eexists; repeat split.
Qed.

(** ** Implicit conversion *)

Lemma member_type_decl (m : Member) : member_type m = shape (decl_type m).
Proof. now destruct m. Qed.

(** An argument converts exactly when its type is convertible. *)
Lemma convert_is_convertible (to : CppType) (a : Arg) :
  is_convertible (type_of a) to = true <-> convert to a <> None.
Proof.
  destruct to as [e | | s w |], a as [e' c | b | s' w' n | bs];
    cbn [is_convertible type_of convert];
    try (split; [discriminate | intros H; now contradiction H]);
    try (split; [discriminate | reflexivity]).
  destruct (Enum_eq_dec e' e).
  - split; [intros _; discriminate | reflexivity].
  - split; [discriminate | intros H; now contradiction H].
Qed.

(** What a conversion to a member's declared type yields is a value of
    that type. *)
Lemma convert_has_type (m : Member) (a : Arg) (v : Value) :
  convert (decl_type m) a = Some v -> has_type v (member_type m) = true.
Proof.
  assert (Hr : forall w x, 0 <= w -> has_type (VUInt (low w x)) (c_uint w) = true).
  { intros w x Hw. cbn [has_type]. pose proof (low_range w x Hw) as [H0 H1].
    apply andb_true_iff. split; [now apply Z.leb_le | now apply Z.ltb_lt]. }
  rewrite member_type_decl.
  destruct (decl_type m) as [e | | s w |] eqn:E, a as [e' c | b | s' w' n | bs];
    cbn [convert shape]; try discriminate.
  - destruct (Enum_eq_dec e' e); [| discriminate]. intros [= <-].
    apply Hr. lia.
  - now intros [= <-].
  - now intros [= <-].
  - intros [= <-]. destruct m; try discriminate E; injection E as <- <-;
      now destruct b.
  - intros [= <-]. destruct m; try discriminate E; injection E as <- <-;
      apply Hr; lia.
  - now intros [= <-].
Qed.

(** An argument of the member's own type converts to itself. *)
Lemma convert_arg_of (m : Member) (v : Value) :
  has_type v (member_type m) = true ->
  is_convertible (type_of (arg_of m v)) (decl_type m) = true /\
  convert (decl_type m) (arg_of m v) = Some v.
Proof.
  rewrite member_type_decl. unfold arg_of.
  destruct (decl_type m) as [e | | s w |], v as [b | n | bs];
    cbn [shape has_type type_of is_convertible convert]; try discriminate;
    intros H.
  - destruct (Enum_eq_dec e e) as [_ | Hne]; [| now contradiction Hne].
    split; [reflexivity |]. now rewrite low_small by (now apply in_range).
  - split; reflexivity.
  - split; [reflexivity |]. now rewrite low_small by (now apply in_range).
  - split; reflexivity.
Qed.

(** ** The tag-to-member mapping *)

Lemma mem_tag_In (t : Z) (l : list Z) : mem_tag t l = true <-> In t l.
Proof.
  unfold mem_tag. rewrite existsb_exists. split.
  - intros (x & Hx & E). apply Z.eqb_eq in E. now subst.
  - intros H. exists t. split; [assumption | apply Z.eqb_refl].
Qed.

(** A property checked on every enumerator holds of each of them. *)
Lemma for_all_enumerators (P : Z -> bool) (l : list Z) :
  forallb P l = true -> forall t, In t l -> P t = true.
Proof. intros H t Ht. rewrite forallb_forall in H. now apply H. Qed.

(** Every typed tag the header declares is one of an enumerator. *)
Lemma declared_typed_tags_enumerated :
  forall t, In t declared_typed_tags -> In t Tag.enumerators.
Proof.
  intros t Ht. apply mem_tag_In.
  revert t Ht. apply for_all_enumerators. vm_compute. reflexivity.
Qed.

(** A typed tag of category [BOOL] maps to [f.boolValue]: none of the
    per-tag overloads is on a [BOOL] tag. *)
Lemma accessTagValue_BOOL (ttag : TypedTag) :
  tag_type ttag = TagType.BOOL -> accessTagValue ttag = Some f_boolValue.
Proof.
  destruct ttag as [tt t]. cbn [tag_type]. intros ->. reflexivity.
Qed.

(** ** Construction *)

Lemma makeKeyParameter_convert (mem : Indeterminate) (ttag : TypedTag)
    (m : Member) (a : Arg) (v : Value) :
  accessTagValue ttag = Some m ->
  convert (decl_type m) a = Some v ->
  exists param,
    makeKeyParameter mem ttag a = Some param /\
    tag param = tag_of ttag /\
    load m param = v /\
    f param = zero_extended v /\
    blob param = blob_of v.
Proof.
  intros Hm Hcv. pose proof (convert_has_type m a v Hcv) as Hty.
  unfold makeKeyParameter, assign. rewrite Hm, Hcv.
  destruct (load_store m v
              (store_uint 64 0 (store_tag (tag_of ttag) (KeyParameter_decl mem)))
              Hty) as (param & Hst & Hld & Htag).
  exists param. repeat split; try assumption.
  - revert Hst Hty. unfold store, has_type.
    destruct (member_type m) as [| w |], v as [b | n | bs]; try discriminate;
      intros [= <-] Hty; cbn [f store_bool store_uint store_bytes store_tag
                                KeyParameter_decl zero_extended];
      rewrite put_64_zero; try reflexivity; rewrite put_zero.
    + now destruct b.
    + now apply low_small, in_range.
  - revert Hst. unfold store.
    destruct (member_type m), v; try discriminate; now intros [= <-].
Qed.

Lemma makeKeyParameter_spec (mem : Indeterminate) (ttag : TypedTag)
    (m : Member) (v : Value) :
  accessTagValue ttag = Some m ->
  has_type v (member_type m) = true ->
  exists param,
    makeKeyParameter mem ttag (arg_of m v) = Some param /\
    tag param = tag_of ttag /\
    load m param = v /\
    f param = zero_extended v /\
    blob param = blob_of v.
Proof.
  intros Hm Hty. apply makeKeyParameter_convert; [assumption |].
  now apply convert_arg_of.
Qed.

Lemma makeKeyParameter_bool_spec (mem : Indeterminate) (ttag : TypedTag) :
  tag (makeKeyParameter_bool mem ttag) = tag_of ttag /\
  load f_boolValue (makeKeyParameter_bool mem ttag) = VBool true.
Proof.
  split; [reflexivity |].
  unfold makeKeyParameter_bool, load. cbn [member_type f store_bool].
  now rewrite low_put by lia.
Qed.

Lemma Authorization_convertible (mem : Indeterminate) (ttag : TypedTag)
    (m : Member) (a : Arg) :
  tag_type ttag <> TagType.BOOL ->
  accessTagValue ttag = Some m ->
  is_convertible (type_of a) (decl_type m) = true ->
  Authorization mem ttag [a] = makeKeyParameter mem ttag a.
Proof.
  intros Hb Hm Hcv. unfold Authorization, TypedTag2ValueType.
  apply Z.eqb_neq in Hb. rewrite Hb, Hm. cbn [option_map]. now rewrite Hcv.
Qed.

Lemma Authorization_value (mem : Indeterminate) (ttag : TypedTag)
    (m : Member) (v : Value) :
  tag_type ttag <> TagType.BOOL ->
  accessTagValue ttag = Some m ->
  has_type v (member_type m) = true ->
  Authorization mem ttag [arg_of m v] = makeKeyParameter mem ttag (arg_of m v).
Proof.
  intros Hb Hm Hty.
  apply (Authorization_convertible mem ttag m (arg_of m v) Hb Hm).
  now apply convert_arg_of.
Qed.

Lemma Authorization_bool (mem : Indeterminate) (ttag : TypedTag) :
  tag_type ttag = TagType.BOOL ->
  Authorization mem ttag [] = Some (makeKeyParameter_bool mem ttag).
Proof.
  intros Hb. unfold Authorization. apply Z.eqb_eq in Hb. now rewrite Hb.
Qed.

Lemma authorizationValue_match (ttag : TypedTag) (m : Member)
    (param : KeyParameter) :
  accessTagValue ttag = Some m ->
  tag param = tag_of ttag ->
  authorizationValue ttag param = Some (NullOr_of (Some (load m param))).
Proof.
  intros Hm Ht. unfold authorizationValue.
  now rewrite Hm, Ht, Z.eqb_refl.
Qed.

(** ** Category derivation and typed-tag construction *)

(** C7.  Category derivation is total and typed-tag construction never
    fails: for every tag of the closed set, [typeFromTag] yields one of the
    categories of [TagType]; declaring the tag's typed tag passes the
    constructor's [static_assert]; and that category is the only one with
    which a [TypedTag] of the tag can be constructed. *)
Theorem typeFromTag_total_TypedTag_constructs (t : Z) :
  In t Tag.enumerators ->
  In (typeFromTag t) TagType.enumerators /\
  DECLARE_TYPED_TAG t = Some (Tag2TypedTag t) /\
  (forall c, TypedTag_ctor c t <> None <-> c = typeFromTag t).
Proof.
  intros Ht. split; [| split].
  - apply mem_tag_In. revert t Ht. apply for_all_enumerators.
    vm_compute. reflexivity.
  - unfold DECLARE_TYPED_TAG, TypedTag_ctor, Tag2TypedTag.
    cbn [tag_type tag_of]. now rewrite Z.eqb_refl.
  - intros c. unfold TypedTag_ctor.
    destruct (Z.eqb_spec (typeFromTag t) c) as [E | E].
    + split; [now intros _ | discriminate].
    + split; [now intros H | intros ->; now contradiction E].
Qed.

Lemma typeFromTag_total_TypedTag_constructs_witness :
  In Tag.USER_SECURE_ID Tag.enumerators /\
  typeFromTag Tag.USER_SECURE_ID = TagType.ULONG_REP /\
  DECLARE_TYPED_TAG Tag.USER_SECURE_ID
  = Some (mkTypedTag TagType.ULONG_REP Tag.USER_SECURE_ID).
Proof.
  assert (H : In Tag.USER_SECURE_ID Tag.enumerators)
    by (apply mem_tag_In; vm_compute; reflexivity).
  split; [exact H |]. split; [vm_compute; reflexivity |].
  exact (proj1 (proj2 (typeFromTag_total_TypedTag_constructs
                         Tag.USER_SECURE_ID H))).
Defined.

(** ** Extraction *)

(** C4.  Absence on tag mismatch: for a typed tag with a mapped member,
    [authorizationValue] returns the invalid wrapper (the null sentinel,
    [isOk] false) whenever the parameter's tag differs from the typed tag's,
    whatever the payload, which it does not read: the result is the same for
    any other parameter with a differing tag.  On equal tags it returns a
    valid wrapper of the mapped member. *)
Theorem authorizationValue_absent_on_mismatch
    (ttag : TypedTag) (m : Member) (param : KeyParameter) :
  accessTagValue ttag = Some m ->
  (tag param <> tag_of ttag ->
     authorizationValue ttag param = Some (NullOr_null None) /\
     isOk (NullOr_null (@None Value)) = false /\
     forall param', tag param' <> tag_of ttag ->
       authorizationValue ttag param' = authorizationValue ttag param) /\
  (tag param = tag_of ttag ->
     exists w, authorizationValue ttag param = Some w /\
               isOk w = true /\ value w = Some (load m param)).
Proof.
  intros Hm.
  assert (Hne : forall q, tag q <> tag_of ttag ->
                  authorizationValue ttag q = Some (NullOr_null None)).
  { intros q Hq. unfold authorizationValue. rewrite Hm.
    assert (E : (tag_of ttag =? tag q) = false) by (apply Z.eqb_neq; congruence).
    now rewrite E. }
  split.
  - intros Hp. split; [now apply Hne |]. split; [reflexivity |].
    intros q Hq. now rewrite (Hne q Hq), (Hne param Hp).
  - intros Hp. eexists.
    split; [exact (authorizationValue_match ttag m param Hm Hp) |].
    split; reflexivity.
Qed.

Lemma authorizationValue_absent_on_mismatch_witness :
  authorizationValue (Tag2TypedTag Tag.ALGORITHM)
    (mkKeyParameter Tag.PURPOSE 0 []) = Some (NullOr_null None) /\
  exists w, authorizationValue (Tag2TypedTag Tag.PURPOSE)
              (mkKeyParameter Tag.PURPOSE 0 []) = Some w /\
            isOk w = true /\ value w = Some (VUInt 0).
Proof.
  split.
  - refine (proj1 (proj1 (authorizationValue_absent_on_mismatch
                            (Tag2TypedTag Tag.ALGORITHM) f_algorithm
                            (mkKeyParameter Tag.PURPOSE 0 []) eq_refl) _)).
    vm_compute. discriminate.
  - refine (proj2 (authorizationValue_absent_on_mismatch
                     (Tag2TypedTag Tag.PURPOSE) f_purpose
                     (mkKeyParameter Tag.PURPOSE 0 []) eq_refl) _).
    reflexivity.
Defined.

(** ** Construction followed by extraction *)

(** C1.  Round trip: for a typed tag of a category other than [BOOL] and a
    value of the tag's mapped type, [Authorization] builds a parameter from
    which [authorizationValue] of the same typed tag returns a valid wrapper
    of that value; for a [BOOL] typed tag, [Authorization] without argument
    builds one from which it returns a valid wrapper of [true].  Both hold
    whatever the storage of the new parameter held before.  The value is
    passed as an argument of the mapped type, [arg_of m v]. *)
Theorem Authorization_authorizationValue_roundtrip
    (mem : Indeterminate) (ttag : TypedTag) :
  (tag_type ttag <> TagType.BOOL ->
   forall m v,
     accessTagValue ttag = Some m ->
     has_type v (member_type m) = true ->
     exists param w,
       Authorization mem ttag [arg_of m v] = Some param /\
       authorizationValue ttag param = Some w /\
       isOk w = true /\ value w = Some v) /\
  (tag_type ttag = TagType.BOOL ->
   exists param w,
     Authorization mem ttag [] = Some param /\
     authorizationValue ttag param = Some w /\
     isOk w = true /\ value w = Some (VBool true)).
Proof.
  split.
  - intros Hb m v Hm Hty.
    destruct (makeKeyParameter_spec mem ttag m v Hm Hty)
      as (param & Hmk & Htag & Hld & _).
    exists param, (NullOr_of (Some v)).
    rewrite (Authorization_value mem ttag m v Hb Hm Hty).
    split; [assumption |]. split; [| split; reflexivity].
    now rewrite (authorizationValue_match ttag m param Hm Htag), Hld.
  - intros Hb.
    destruct (makeKeyParameter_bool_spec mem ttag) as [Htag Hld].
    exists (makeKeyParameter_bool mem ttag), (NullOr_of (Some (VBool true))).
    split; [now apply Authorization_bool |]. split; [| split; reflexivity].
    rewrite (authorizationValue_match ttag f_boolValue _
               (accessTagValue_BOOL ttag Hb) Htag).
    now rewrite Hld.
Qed.

Lemma Authorization_authorizationValue_roundtrip_witness :
  (exists param w,
     Authorization (mkIndeterminate 0xdeadbeef 0xffffffffffffffff)
       (Tag2TypedTag Tag.KEY_SIZE) [arg_int false 32 256] = Some param /\
     authorizationValue (Tag2TypedTag Tag.KEY_SIZE) param = Some w /\
     isOk w = true /\ value w = Some (VUInt 256)) /\
  (exists param w,
     Authorization (mkIndeterminate 0xdeadbeef 0xffffffffffffffff)
       (Tag2TypedTag Tag.CALLER_NONCE) [] = Some param /\
     authorizationValue (Tag2TypedTag Tag.CALLER_NONCE) param = Some w /\
     isOk w = true /\ value w = Some (VBool true)).
Proof.
  split.
  - refine (proj1 (Authorization_authorizationValue_roundtrip
                     (mkIndeterminate 0xdeadbeef 0xffffffffffffffff)
                     (Tag2TypedTag Tag.KEY_SIZE))
                  _ f_integer (VUInt 256) eq_refl eq_refl).
    vm_compute. discriminate.
  - refine (proj2 (Authorization_authorizationValue_roundtrip
                     (mkIndeterminate 0xdeadbeef 0xffffffffffffffff)
                     (Tag2TypedTag Tag.CALLER_NONCE)) eq_refl).
Defined.

(** C8, as stated, fails: an admissible argument is one whose type converts
    implicitly to the slot's type, and the conversion may change the value.
    [Authorization(TAG_KEY_SIZE, 0x100000100ull)] is accepted, and the
    active slot [f.integer] then holds 256, not the supplied value. *)
Lemma Authorization_narrows_argument :
  exists param,
    is_convertible (type_of (arg_int false 64 0x100000100))
                   (decl_type f_integer) = true /\
    accessTagValue (Tag2TypedTag Tag.KEY_SIZE) = Some f_integer /\
    Authorization (mkIndeterminate 0 0) (Tag2TypedTag Tag.KEY_SIZE)
      [arg_int false 64 0x100000100] = Some param /\
    tag param = Tag.KEY_SIZE /\
    load f_integer param = VUInt 256 /\
    VUInt 256 <> VUInt 0x100000100.
Proof.
  eexists. split; [reflexivity |]. split; [reflexivity |].
  split; [vm_compute; reflexivity |]. split; [reflexivity |].
  split; [reflexivity | discriminate].
Qed.

(** C8, amended.  Postcondition of [Authorization]: for every typed tag
    and every argument whose type converts implicitly to the tag's value
    type, the parameter it returns has the typed tag's tag in its [tag]
    field, and its active member, the one the tag-to-member mapping
    selects, holds the supplied value converted to the member's type; that
    is the supplied value itself when the argument is of the member's own
    type.  For a [BOOL] typed tag the active member is [f.boolValue] and
    holds [true]. *)
Theorem Authorization_postcondition (mem : Indeterminate) (ttag : TypedTag) :
  (tag_type ttag <> TagType.BOOL ->
   forall m a,
     accessTagValue ttag = Some m ->
     is_convertible (type_of a) (decl_type m) = true ->
     exists param v,
       Authorization mem ttag [a] = Some param /\
       tag param = to_Tag ttag /\
       convert (decl_type m) a = Some v /\
       load m param = v) /\
  (tag_type ttag <> TagType.BOOL ->
   forall m v,
     accessTagValue ttag = Some m ->
     has_type v (member_type m) = true ->
     exists param,
       Authorization mem ttag [arg_of m v] = Some param /\
       tag param = to_Tag ttag /\
       load m param = v) /\
  (tag_type ttag = TagType.BOOL ->
   exists param,
     Authorization mem ttag [] = Some param /\
     tag param = to_Tag ttag /\
     accessTagValue ttag = Some f_boolValue /\
     load f_boolValue param = VBool true).
Proof.
  split; [| split].
  - intros Hb m a Hm Hcv.
    destruct (convert (decl_type m) a) as [v |] eqn:Ecv;
      [| now apply convert_is_convertible in Hcv].
    destruct (makeKeyParameter_convert mem ttag m a v Hm Ecv)
      as (param & Hmk & Htag & Hld & _).
    exists param, v. rewrite (Authorization_convertible mem ttag m a Hb Hm Hcv).
    now repeat split.
  - intros Hb m v Hm Hty.
    destruct (makeKeyParameter_spec mem ttag m v Hm Hty)
      as (param & Hmk & Htag & Hld & _).
    exists param. rewrite (Authorization_value mem ttag m v Hb Hm Hty).
    now repeat split.
  - intros Hb.
    destruct (makeKeyParameter_bool_spec mem ttag) as [Htag Hld].
    exists (makeKeyParameter_bool mem ttag).
    split; [now apply Authorization_bool |]. split; [assumption |].
    split; [now apply accessTagValue_BOOL | assumption].
Qed.

Lemma Authorization_postcondition_witness :
  (exists param v,
     Authorization (mkIndeterminate 7 9) (Tag2TypedTag Tag.MAC_LENGTH)
       [arg_int true 32 (-1)] = Some param /\
     tag param = Tag.MAC_LENGTH /\
     convert (T_integer false 32) (arg_int true 32 (-1)) = Some v /\
     load f_integer param = v) /\
  (exists param,
     Authorization (mkIndeterminate 7 9) (Tag2TypedTag Tag.NONCE)
       [arg_bytes [x01; x02; x03]] = Some param /\
     tag param = Tag.NONCE /\
     load m_blob param = VBytes [x01; x02; x03]) /\
  (exists param,
     Authorization (mkIndeterminate 7 9)
       (Tag2TypedTag Tag.NO_AUTH_REQUIRED) [] = Some param /\
     tag param = Tag.NO_AUTH_REQUIRED /\
     accessTagValue (Tag2TypedTag Tag.NO_AUTH_REQUIRED) = Some f_boolValue /\
     load f_boolValue param = VBool true).
Proof.
  split; [| split].
  - refine (proj1 (Authorization_postcondition (mkIndeterminate 7 9)
                     (Tag2TypedTag Tag.MAC_LENGTH))
                  _ f_integer (arg_int true 32 (-1)) eq_refl eq_refl).
    vm_compute. discriminate.
  - refine (proj1 (proj2 (Authorization_postcondition (mkIndeterminate 7 9)
                            (Tag2TypedTag Tag.NONCE)))
                  _ m_blob (VBytes [x01; x02; x03]) eq_refl eq_refl).
    vm_compute. discriminate.
  - refine (proj2 (proj2 (Authorization_postcondition (mkIndeterminate 7 9)
                            (Tag2TypedTag Tag.NO_AUTH_REQUIRED))) eq_refl).
Defined.

(** ** Initialization of the union *)

Lemma KeyParameter_ext (a b : KeyParameter) :
  tag a = tag b -> f a = f b -> blob a = blob b -> a = b.
Proof. destruct a, b. cbn. now intros -> -> ->. Qed.

(** [makeKeyParameter_bool] has no [param.f.longInteger = 0]: the seven
    bytes of the union above [f.boolValue] keep what the storage held. *)
Lemma makeKeyParameter_bool_keeps_storage (mem : Indeterminate)
    (ttag : TypedTag) :
  Z.shiftr (f (makeKeyParameter_bool mem ttag)) 8
  = Z.shiftr (low 64 (old_f mem)) 8.
Proof.
  unfold makeKeyParameter_bool. cbn [f store_bool store_tag KeyParameter_decl].
  apply Z.bits_inj'. intros i Hi.
  rewrite !Z.shiftr_spec, put_testbit by lia.
  destruct (Z.ltb_spec (i + 8) 8); [lia | reflexivity].
Qed.




(** ** Fallback over wrappers *)

Section NullOrOr_facts.
Context {internal_t : Type}.
Variable init : internal_t.

Lemma NullOrOr_find (head : NullOr internal_t) (tail : list (NullOr internal_t)) :
  NullOrOr init head tail
  = match find isOk (head :: tail) with
    | Some w => w
    | None => NullOr_null init
    end.
Proof.
  revert head. induction tail as [| next rest IH]; intros head.
  - cbn [NullOrOr find]. now destruct (isOk head).
  - cbn [NullOrOr]. change (find isOk (head :: next :: rest))
      with (if isOk head then Some head else find isOk (next :: rest)).
    destruct (isOk head); [reflexivity | apply IH].
Qed.

Lemma NullOrOr_short_circuit (pre : list (NullOr internal_t)) :
  forall head tail w post,
    head :: tail = pre ++ w :: post ->
    forallb (fun x => negb (isOk x)) pre = true ->
    isOk w = true ->
    NullOrOr init head tail = w /\
    NullOrOr_inspected head tail = pre ++ [w].
Proof.
  induction pre as [| x pre IH]; intros head tail w post E Hpre Hw.
  - cbn [app] in E. injection E as -> _.
    destruct tail; cbn [NullOrOr NullOrOr_inspected app]; rewrite ?Hw;
      split; reflexivity.
  - cbn [app] in E. injection E as -> ->.
    cbn [forallb] in Hpre. apply andb_true_iff in Hpre as [Hx Hpre].
    cbv beta in Hx. apply negb_true_iff in Hx.
    destruct (pre ++ w :: post) as [| next rest] eqn:E.
    + now destruct pre.
    + cbn [NullOrOr NullOrOr_inspected app]. rewrite Hx.
      destruct (IH next rest w post (eq_sym E) Hpre Hw) as [-> ->].
      split; reflexivity.
Qed.

Lemma NullOrOr_none_valid (head : NullOr internal_t)
    (tail : list (NullOr internal_t)) :
  forallb (fun x => negb (isOk x)) (head :: tail) = true ->
  NullOrOr init head tail = NullOr_null init /\
  NullOrOr_inspected head tail = head :: tail.
Proof.
  revert head. induction tail as [| next rest IH]; intros head H;
    cbn [forallb] in H; apply andb_true_iff in H as [Hh H];
    cbv beta in Hh; apply negb_true_iff in Hh;
    cbn [NullOrOr NullOrOr_inspected]; rewrite ?Hh.
  - split; reflexivity.
  - destruct (IH next H) as [-> ->]. split; reflexivity.
Qed.
End NullOrOr_facts.

(** C9.  [NullOrOr] returns the first valid wrapper among its arguments,
    from left to right, and the invalid wrapper [{}] when none is valid.  It
    is a function of its arguments alone, and it calls [isOk] on the
    arguments up to the first valid one and on no later one: what follows
    the first valid argument has no part in the result. *)
Theorem NullOrOr_first_valid {internal_t : Type} (init : internal_t)
    (head : NullOr internal_t) (tail : list (NullOr internal_t)) :
  NullOrOr init head tail
  = match find isOk (head :: tail) with
    | Some w => w
    | None => NullOr_null init
    end /\
  (forall pre w post,
     head :: tail = pre ++ w :: post ->
     forallb (fun x => negb (isOk x)) pre = true ->
     isOk w = true ->
     NullOrOr init head tail = w /\
     NullOrOr_inspected head tail = pre ++ [w]) /\
  (forallb (fun x => negb (isOk x)) (head :: tail) = true ->
     NullOrOr init head tail = NullOr_null init /\
     isOk (NullOrOr init head tail) = false).
Proof.
  split; [apply NullOrOr_find |]. split.
  - intros pre w post. apply NullOrOr_short_circuit.
  - intros H. destruct (NullOrOr_none_valid init head tail H) as [E _].
    split; [assumption | now rewrite E].
Qed.

Lemma NullOrOr_first_valid_witness :
  NullOrOr 0 (NullOr_null 0) [NullOr_null 0; NullOr_of 5; NullOr_of 6]
  = NullOr_of 5 /\
  NullOrOr_inspected (NullOr_null 0) [NullOr_null 0; NullOr_of 5; NullOr_of 6]
  = [NullOr_null 0; NullOr_null 0; NullOr_of 5] /\
  NullOrOr 0 (NullOr_null 0) [NullOr_null 0] = NullOr_null 0.
Proof.
  split; [| split].
  - refine (proj1 (proj1 (proj2 (NullOrOr_first_valid 0 (NullOr_null 0)
              [NullOr_null 0; NullOr_of 5; NullOr_of 6]))
              [NullOr_null 0; NullOr_null 0] (NullOr_of 5) [NullOr_of 6]
              eq_refl eq_refl eq_refl)).
  - refine (proj2 (proj1 (proj2 (NullOrOr_first_valid 0 (NullOr_null 0)
              [NullOr_null 0; NullOr_of 5; NullOr_of 6]))
              [NullOr_null 0; NullOr_null 0] (NullOr_of 5) [NullOr_of 6]
              eq_refl eq_refl eq_refl)).
  - refine (proj1 (proj2 (proj2 (NullOrOr_first_valid 0 (NullOr_null 0)
              [NullOr_null 0])) eq_refl)).
Defined.

(** ** Equality *)

Lemma has_label_In (t : Z) (group : list Z * Branch) :
  has_label t group = true <-> In t (fst group).
Proof. apply mem_tag_In. Qed.

(** Control leaves a [switch] exactly on a value that no case label names. *)
Lemma switch_None_iff (t : Z) (cases : list (list Z * Branch)) :
  switch t cases = None <-> ~ In t (labels cases).
Proof.
  unfold switch, labels.
  induction cases as [| group cases IH]; cbn [find map concat option_map].
  - split; [intros _ [] | reflexivity].
  - rewrite in_app_iff. destruct (has_label t group) eqn:E.
    + apply has_label_In in E. split; [discriminate | intros H; tauto].
    + assert (~ In t (fst group))
        by (intros H; apply has_label_In in H; congruence).
      tauto.
Qed.

(** The case labels of [operator==] are the enumerators of [Tag]. *)
Lemma labels_enumerators (t : Z) :
  In t (labels switch_cases) <-> In t Tag.enumerators.
Proof.
  split; intros H; apply mem_tag_In; revert t H; apply for_all_enumerators;
    vm_compute; reflexivity.
Qed.

Lemma operator_eq_tags_differ (a b : KeyParameter) :
  tag a <> tag b -> operator_eq a b = false.
Proof.
  intros H. unfold operator_eq. apply Z.eqb_neq in H. now rewrite H.
Qed.

Lemma operator_eq_dispatch (a b : KeyParameter) :
  tag a = tag b ->
  operator_eq a b
  = match switch (tag a) switch_cases with
    | Some return_true => true
    | Some (return_eq m) => Value_eqb (load m a) (load m b)
    | None => false
    end.
Proof.
  intros H. unfold operator_eq. apply Z.eqb_eq in H. now rewrite H.
Qed.

Lemma branch_agrees_enumerators (t : Z) :
  In t Tag.enumerators -> branch_agrees t = true.
Proof.
  revert t. apply for_all_enumerators. vm_compute. reflexivity.
Qed.

(** C2, as stated, fails: the header's own tag [KM_TAG_FBE_ICE] has the
    category [BOOL], yet a parameter with that tag is not equal to itself. *)
Lemma operator_eq_BOOL_outside_enumeration :
  typeFromTag (tag (mkKeyParameter KM_TAG_FBE_ICE 1 [])) = TagType.BOOL /\
  operator_eq (mkKeyParameter KM_TAG_FBE_ICE 1 [])
              (mkKeyParameter KM_TAG_FBE_ICE 1 []) = false.
Proof. split; vm_compute; reflexivity. Qed.

(** C2, amended.  For parameters whose tag is in the closed tag set:
    parameters with different tags are unequal; with equal tags of category
    [BOOL] they are equal; with equal tags of another category that has a
    mapped member, the result is the equality of what that member holds in
    the two parameters.  For a tag outside the closed set the result is
    [false], whatever its category. *)
Theorem operator_eq_dispatch_enumerated (a b : KeyParameter) :
  (In (tag a) Tag.enumerators ->
     (tag a <> tag b -> operator_eq a b = false) /\
     (tag a = tag b -> typeFromTag (tag a) = TagType.BOOL ->
        operator_eq a b = true) /\
     (tag a = tag b -> typeFromTag (tag a) <> TagType.BOOL ->
        forall m, accessTagValue (Tag2TypedTag (tag a)) = Some m ->
          operator_eq a b = Value_eqb (load m a) (load m b))) /\
  (~ In (tag a) Tag.enumerators -> operator_eq a b = false).
Proof.
  split.
  - intros Hin. split; [apply operator_eq_tags_differ |].
    pose proof (branch_agrees_enumerators (tag a) Hin) as Hag.
    unfold branch_agrees in Hag. split.
    + intros Ht Hb. rewrite (operator_eq_dispatch a b Ht).
      rewrite (accessTagValue_BOOL (Tag2TypedTag (tag a)) Hb) in Hag.
      destruct (switch (tag a) switch_cases) as [[| m] |];
        [reflexivity | | discriminate].
      apply Z.eqb_eq in Hb. rewrite Hb in Hag. discriminate.
    + intros Ht Hb m' Hm'. rewrite (operator_eq_dispatch a b Ht).
      rewrite Hm' in Hag. apply Z.eqb_neq in Hb. rewrite Hb in Hag.
      destruct (switch (tag a) switch_cases) as [[| m] |]; try discriminate.
      cbn [negb andb] in Hag.
      assert (E : member_type m = member_type m').
      { destruct (member_type m), (member_type m'); try discriminate;
          try reflexivity.
        apply Z.eqb_eq in Hag. now subst. }
      now rewrite (load_same_type m m' a E), (load_same_type m m' b E).
  - intros Hout.
    assert (E : switch (tag a) switch_cases = None).
    { apply switch_None_iff. intros H. now apply labels_enumerators in H. }
    unfold operator_eq. rewrite E. now destruct (negb (tag a =? tag b)).
Qed.

Lemma operator_eq_dispatch_enumerated_witness :
  operator_eq (mkKeyParameter Tag.NONCE 0 [x01; x02; x03])
              (mkKeyParameter Tag.KEY_SIZE 0 [x01; x02; x03]) = false /\
  operator_eq (mkKeyParameter Tag.CALLER_NONCE 1 [])
              (mkKeyParameter Tag.CALLER_NONCE 0xff01 [x00]) = true /\
  operator_eq (mkKeyParameter Tag.USER_AUTH_TYPE 2 [])
              (mkKeyParameter Tag.USER_AUTH_TYPE 3 [])
  = Value_eqb (VUInt 2) (VUInt 3) /\
  operator_eq (mkKeyParameter KM_TAG_PADDING_OLD 7 [])
              (mkKeyParameter KM_TAG_PADDING_OLD 7 []) = false.
Proof.
  split; [| split; [| split]].
  - refine (proj1 (proj1 (operator_eq_dispatch_enumerated
              (mkKeyParameter Tag.NONCE 0 [x01; x02; x03])
              (mkKeyParameter Tag.KEY_SIZE 0 [x01; x02; x03])) _) _).
    + apply mem_tag_In. vm_compute. reflexivity.
    + vm_compute. discriminate.
  - refine (proj1 (proj2 (proj1 (operator_eq_dispatch_enumerated
              (mkKeyParameter Tag.CALLER_NONCE 1 [])
              (mkKeyParameter Tag.CALLER_NONCE 0xff01 [x00])) _))
              eq_refl eq_refl).
    apply mem_tag_In. vm_compute. reflexivity.
  - refine (proj2 (proj2 (proj1 (operator_eq_dispatch_enumerated
              (mkKeyParameter Tag.USER_AUTH_TYPE 2 [])
              (mkKeyParameter Tag.USER_AUTH_TYPE 3 [])) _))
              eq_refl _ f_hardwareAuthenticatorType eq_refl).
    + apply mem_tag_In. vm_compute. reflexivity.
    + vm_compute. discriminate.
  - refine (proj2 (operator_eq_dispatch_enumerated
              (mkKeyParameter KM_TAG_PADDING_OLD 7 [])
              (mkKeyParameter KM_TAG_PADDING_OLD 7 [])) _).
    intros H. apply mem_tag_In in H. vm_compute in H. discriminate H.
Defined.

(** C5, as stated, fails: a parameter whose tag is the header's own
    [KM_TAG_KEY_TYPE], which is not an enumerator, is not equal to itself. *)
Lemma operator_eq_not_reflexive_outside_enumeration :
  operator_eq (mkKeyParameter KM_TAG_KEY_TYPE 3 [])
              (mkKeyParameter KM_TAG_KEY_TYPE 3 []) = false.
Proof. vm_compute. reflexivity. Qed.

(** C5, amended.  Reflexivity on the closed tag set: a parameter whose tag
    is an enumerator of [Tag], of whatever category, is equal to itself; a
    parameter whose tag is outside the closed set is not. *)
Theorem operator_eq_refl_enumerated (a : KeyParameter) :
  (In (tag a) Tag.enumerators -> operator_eq a a = true) /\
  (~ In (tag a) Tag.enumerators -> operator_eq a a = false).
Proof.
  rewrite (operator_eq_dispatch a a eq_refl). split.
  - intros Hin. destruct (switch (tag a) switch_cases) as [[| m] |] eqn:E.
    + reflexivity.
    + apply Value_eqb_refl.
    + apply switch_None_iff in E. now apply labels_enumerators in Hin.
  - intros Hout.
    assert (E : switch (tag a) switch_cases = None).
    { apply switch_None_iff. intros H. now apply labels_enumerators in H. }
    now rewrite E.
Qed.

Lemma operator_eq_refl_enumerated_witness :
  operator_eq (mkKeyParameter Tag.NONCE 77 [x01; x02; x03])
              (mkKeyParameter Tag.NONCE 77 [x01; x02; x03]) = true /\
  operator_eq (mkKeyParameter KM_TAG_FBE_ICE 1 [])
              (mkKeyParameter KM_TAG_FBE_ICE 1 []) = false.
Proof.
  split.
  - refine (proj1 (operator_eq_refl_enumerated
              (mkKeyParameter Tag.NONCE 77 [x01; x02; x03])) _).
    apply mem_tag_In. vm_compute. reflexivity.
  - refine (proj2 (operator_eq_refl_enumerated
              (mkKeyParameter KM_TAG_FBE_ICE 1 [])) _).
    intros H. apply mem_tag_In in H. vm_compute in H. discriminate H.
Defined.

(** C6.  Exhaustive comparison coverage: a tag of the closed set is named
    by the case labels of exactly one branch of [operator==] (and by one
    label); on two parameters that carry it [operator==] returns what that
    branch returns, so the final [return false] is not reached, and a
    parameter that carries it is equal to itself.  A tag outside the closed
    set is named by no label, falls through, and makes the parameters
    unequal. *)
Theorem operator_eq_switch_exhaustive (t : Z) :
  (In t Tag.enumerators ->
     length (filter (has_label t) switch_cases) = 1%nat /\
     count_occ Z.eq_dec (labels switch_cases) t = 1%nat /\
     exists branch,
       switch t switch_cases = Some branch /\
       (forall a b, tag a = t -> tag b = t ->
          operator_eq a b
          = match branch with
            | return_true => true
            | return_eq m => Value_eqb (load m a) (load m b)
            end) /\
       (forall a, tag a = t -> operator_eq a a = true)) /\
  (~ In t Tag.enumerators ->
     switch t switch_cases = None /\
     forall a b, tag a = t -> operator_eq a b = false).
Proof.
  split.
  - intros Hin.
    assert (H : (Nat.eqb (length (filter (has_label t) switch_cases)) 1 &&
                 Nat.eqb (count_occ Z.eq_dec (labels switch_cases) t) 1)%bool
                = true).
    { revert t Hin. apply for_all_enumerators. vm_compute. reflexivity. }
    apply andb_true_iff in H as [H1 H2].
    apply Nat.eqb_eq in H1. apply Nat.eqb_eq in H2.
    split; [assumption |]. split; [assumption |].
    destruct (switch t switch_cases) as [branch |] eqn:E.
    + exists branch. split; [reflexivity |]. split.
      * intros a b Ha Hb. rewrite (operator_eq_dispatch a b) by congruence.
        now rewrite Ha, E.
      * intros a Ha. rewrite (operator_eq_dispatch a a eq_refl), Ha, E.
        destruct branch; [reflexivity | apply Value_eqb_refl].
    + apply switch_None_iff in E. now apply labels_enumerators in Hin.
  - intros Hout.
    assert (E : switch t switch_cases = None).
    { apply switch_None_iff. intros H. now apply labels_enumerators in H. }
    split; [assumption |]. intros a b Ht. unfold operator_eq.
    rewrite Ht, E. now destruct (negb (t =? tag b)).
Qed.

Lemma operator_eq_switch_exhaustive_witness :
  (length (filter (has_label Tag.USER_AUTH_TYPE) switch_cases) = 1%nat /\
   count_occ Z.eq_dec (labels switch_cases) Tag.USER_AUTH_TYPE = 1%nat /\
   exists branch,
     switch Tag.USER_AUTH_TYPE switch_cases = Some branch /\
     (forall a b, tag a = Tag.USER_AUTH_TYPE -> tag b = Tag.USER_AUTH_TYPE ->
        operator_eq a b
        = match branch with
          | return_true => true
          | return_eq m => Value_eqb (load m a) (load m b)
          end) /\
     (forall a, tag a = Tag.USER_AUTH_TYPE -> operator_eq a a = true)) /\
  (switch KM_TAG_DIGEST_OLD switch_cases = None /\
   forall a b, tag a = KM_TAG_DIGEST_OLD -> operator_eq a b = false).
Proof.
  split.
  - refine (proj1 (operator_eq_switch_exhaustive Tag.USER_AUTH_TYPE) _).
    apply mem_tag_In. vm_compute. reflexivity.
  - refine (proj2 (operator_eq_switch_exhaustive KM_TAG_DIGEST_OLD) _).
    intros H. apply mem_tag_In in H. vm_compute in H. discriminate H.
Defined.

(** C10.  Any two parameters whose tag is [Tag::INVALID] are equal, whatever
    their payloads: [Tag::INVALID] is a case label of the branch that
    returns [true], although its derived category is [TagType::INVALID], not
    [TagType::BOOL]. *)
Theorem operator_eq_INVALID (a b : KeyParameter) :
  tag a = Tag.INVALID -> tag b = Tag.INVALID ->
  operator_eq a b = true /\
  switch Tag.INVALID switch_cases = Some return_true /\
  typeFromTag Tag.INVALID = TagType.INVALID /\
  typeFromTag Tag.INVALID <> TagType.BOOL.
Proof.
  intros Ha Hb. split; [| split; [reflexivity | split; [reflexivity |]]].
  - unfold operator_eq. rewrite Ha, Hb. reflexivity.
  - vm_compute. discriminate.
Qed.

Lemma operator_eq_INVALID_witness :
  operator_eq (mkKeyParameter Tag.INVALID 1 [x01])
              (mkKeyParameter Tag.INVALID 0xffffffff00000002 []) = true.
Proof.
  refine (proj1 (operator_eq_INVALID
                   (mkKeyParameter Tag.INVALID 1 [x01])
                   (mkKeyParameter Tag.INVALID 0xffffffff00000002 [])
                   eq_refl eq_refl)).
Defined.

(** ** Scenarios *)

(** [Authorization(TAG_PURPOSE, v)]: [authorizationValue(TAG_ALGORITHM, _)]
    is invalid, [authorizationValue(TAG_PURPOSE, _)] is valid with value
    [v]. *)
Example scenario_PURPOSE :
  exists param,
    Authorization (mkIndeterminate 0 0) (Tag2TypedTag Tag.PURPOSE)
      [arg_enum KeyPurpose 0] = Some param /\
    option_map isOk (authorizationValue (Tag2TypedTag Tag.ALGORITHM) param)
    = Some false /\
    option_map value (authorizationValue (Tag2TypedTag Tag.PURPOSE) param)
    = Some (Some (VUInt 0)).
Proof. eexists. repeat split; vm_compute; reflexivity. Qed.

(** Two parameters built from [Authorization(TAG_NONCE, {1,2,3})] are equal;
    changing one byte makes them unequal. *)
Example scenario_NONCE :
  exists p q r,
    Authorization (mkIndeterminate 1 2) (Tag2TypedTag Tag.NONCE)
      [arg_bytes [x01; x02; x03]] = Some p /\
    Authorization (mkIndeterminate 3 4) (Tag2TypedTag Tag.NONCE)
      [arg_bytes [x01; x02; x03]] = Some q /\
    Authorization (mkIndeterminate 3 4) (Tag2TypedTag Tag.NONCE)
      [arg_bytes [x01; x02; x04]] = Some r /\
    operator_eq p q = true /\ operator_eq p r = false.
Proof. do 3 eexists. repeat split; vm_compute; reflexivity. Qed.

(** * Further properties of the header *)

(** ** Category and number of a tag *)

Lemma category_mask_testbit (i : Z) :
  0 <= i -> Z.testbit 0xf0000000 i = (28 <=? i) && (i <? 32).
Proof.
  intros Hi. change 0xf0000000 with (Z.shiftl (Z.ones 4) 28).
  rewrite Z.shiftl_spec by assumption.
  destruct (Z.leb_spec 28 i) as [H | H].
  - rewrite ones_testbit by lia.
    destruct (Z.ltb_spec (i - 28) 4), (Z.ltb_spec i 32); reflexivity || lia.
  - apply Z.testbit_neg_r. lia.
Qed.

Lemma number_mask_testbit (i : Z) :
  0 <= i -> Z.testbit 0x0FFFFFFF i = (i <? 28).
Proof.
  intros Hi. change 0x0FFFFFFF with (Z.ones 28). apply ones_testbit; lia.
Qed.

Lemma testbit_above (w n i : Z) :
  0 <= n < 2 ^ w -> w <= i -> Z.testbit n i = false.
Proof.
  intros Hn Hi. destruct (Z.le_gt_cases 0 w) as [Hw | Hw].
  - rewrite <- (low_small w n Hn), low_testbit by lia.
    destruct (Z.ltb_spec i w); [lia | apply andb_false_r].
  - rewrite Z.pow_neg_r in Hn by assumption. lia.
Qed.

Lemma uint32_testbit_high (t i : Z) :
  0 <= t < 2 ^ 32 -> 32 <= i -> Z.testbit t i = false.
Proof. apply testbit_above. Qed.

(** The category of a 32-bit tag is the tag with its low 28 bits cleared. *)
Lemma typeFromTag_testbit (t i : Z) :
  0 <= t < 2 ^ 32 -> 0 <= i ->
  Z.testbit (typeFromTag t) i = if i <? 28 then false else Z.testbit t i.
Proof.
  intros Ht Hi. unfold typeFromTag.
  rewrite Z.land_spec, category_mask_testbit by assumption.
  destruct (Z.ltb_spec i 28) as [H | H].
  - destruct (Z.leb_spec 28 i); [lia |]. cbn [andb]. apply andb_false_r.
  - destruct (Z.leb_spec 28 i); [| lia]. cbn [andb].
    destruct (Z.ltb_spec i 32); [apply andb_true_r |].
    rewrite andb_false_r. symmetry. now apply uint32_testbit_high.
Qed.

Lemma maskedTag_testbit (c t i : Z) :
  0 <= i ->
  Z.testbit (maskedTag (mkTypedTag c t)) i
  = if i <? 28 then Z.testbit t i else false.
Proof.
  intros Hi. unfold maskedTag. cbn [tag_of].
  rewrite Z.land_spec, number_mask_testbit by assumption.
  destruct (i <? 28); [apply andb_true_r | apply andb_false_r].
Qed.

Lemma compose_testbit (k n i : Z) :
  0 <= n < 2 ^ 28 -> 0 <= i ->
  Z.testbit (Z.lor (Z.shiftl k 28) n) i
  = if i <? 28 then Z.testbit n i else Z.testbit k (i - 28).
Proof.
  intros Hn Hi. rewrite Z.lor_spec, Z.shiftl_spec by assumption.
  destruct (Z.ltb_spec i 28).
  - now rewrite Z.testbit_neg_r by lia.
  - rewrite (testbit_above 28 n i Hn) by assumption. apply orb_false_r.
Qed.

(** X1.  A 32-bit tag splits into its category and its number:
    [typeFromTag] and [maskedTag] have no bit in common, their union is the
    tag, the number is below [2^28] and the category is a multiple of
    [2^28].  Conversely a tag composed as [category | number], the way the
    header composes its own [KM_TAG_*] codes, gives back that category and
    that number. *)
Theorem typeFromTag_maskedTag_split (c t : Z) :
  0 <= t < 2 ^ 32 ->
  Z.lor (typeFromTag t) (maskedTag (mkTypedTag c t)) = t /\
  Z.land (typeFromTag t) (maskedTag (mkTypedTag c t)) = 0 /\
  0 <= maskedTag (mkTypedTag c t) < 2 ^ 28 /\
  typeFromTag t = Z.shiftl (Z.shiftr t 28) 28 /\
  (forall k n, 0 <= k < 16 -> 0 <= n < 2 ^ 28 ->
     t = Z.lor (Z.shiftl k 28) n ->
     typeFromTag t = Z.shiftl k 28 /\ maskedTag (mkTypedTag c t) = n).
Proof.
  intros Ht. split; [| split; [| split; [| split]]].
  - apply Z.bits_inj'. intros i Hi.
    rewrite Z.lor_spec, typeFromTag_testbit, maskedTag_testbit by assumption.
    destruct (i <? 28); [reflexivity | apply orb_false_r].
  - apply Z.bits_inj'. intros i Hi.
    rewrite Z.land_spec, typeFromTag_testbit, maskedTag_testbit, Z.bits_0
      by assumption.
    destruct (i <? 28); [reflexivity | apply andb_false_r].
  - change (maskedTag (mkTypedTag c t)) with (low 28 t). apply low_range. lia.
  - apply Z.bits_inj'. intros i Hi.
    rewrite typeFromTag_testbit, Z.shiftl_spec by assumption.
    destruct (Z.ltb_spec i 28).
    + symmetry. apply Z.testbit_neg_r. lia.
    + rewrite Z.shiftr_spec by lia. f_equal. lia.
  - intros k n Hk Hn E. split.
    + apply Z.bits_inj'. intros i Hi.
      rewrite typeFromTag_testbit, Z.shiftl_spec by assumption.
      rewrite E, compose_testbit by assumption.
      destruct (Z.ltb_spec i 28); [| reflexivity].
      symmetry. apply Z.testbit_neg_r. lia.
    + apply Z.bits_inj'. intros i Hi.
      rewrite maskedTag_testbit by assumption.
      rewrite E, compose_testbit by assumption.
      destruct (Z.ltb_spec i 28); [reflexivity |].
      symmetry. now apply (testbit_above 28).
Qed.

Lemma typeFromTag_maskedTag_split_witness :
  Z.lor (typeFromTag KM_TAG_FBE_ICE)
        (maskedTag (mkTypedTag TagType.BOOL KM_TAG_FBE_ICE))
  = KM_TAG_FBE_ICE /\
  typeFromTag KM_TAG_FBE_ICE = Z.shiftl 7 28 /\
  maskedTag (mkTypedTag TagType.BOOL KM_TAG_FBE_ICE) = 16201.
Proof.
  assert (R : 0 <= KM_TAG_FBE_ICE < 2 ^ 32) by (vm_compute; split; [discriminate | reflexivity]).
  pose proof (typeFromTag_maskedTag_split TagType.BOOL KM_TAG_FBE_ICE R)
    as (H1 & _ & _ & _ & H5).
  split; [exact H1 |].
  refine (H5 7 16201 _ _ eq_refl); vm_compute;
    (split; [discriminate | reflexivity]).
Defined.

(** ** Equality is symmetric and transitive *)

Lemma Value_eqb_sym (x y : Value) : Value_eqb x y = Value_eqb y x.
Proof.
  destruct (Value_eqb x y) eqn:E1, (Value_eqb y x) eqn:E2; try reflexivity.
  - apply Value_eqb_eq in E1. subst. now rewrite Value_eqb_refl in E2.
  - apply Value_eqb_eq in E2. subst. now rewrite Value_eqb_refl in E1.
Qed.

(** X2.  [operator==] is symmetric, for all parameters: [a == b] and
    [b == a] give the same result. *)
Theorem operator_eq_sym (a b : KeyParameter) :
  operator_eq a b = operator_eq b a.
Proof.
  unfold operator_eq. rewrite (Z.eqb_sym (tag b) (tag a)).
  destruct (Z.eqb_spec (tag a) (tag b)) as [E | E]; [| reflexivity].
  cbn [negb]. rewrite E.
  destruct (switch (tag b) switch_cases) as [[| m] |]; try reflexivity.
  apply Value_eqb_sym.
Qed.

(** X3.  [operator==] is transitive, for all parameters: from [a == b] and
    [b == c] follows [a == c].  Equal parameters have the same tag, and it
    is a tag of the closed set. *)
Theorem operator_eq_trans (a b c : KeyParameter) :
  operator_eq a b = true -> operator_eq b c = true ->
  operator_eq a c = true /\ tag a = tag c /\ In (tag a) Tag.enumerators.
Proof.
  unfold operator_eq.
  destruct (Z.eqb_spec (tag a) (tag b)) as [E1 | E1]; [| discriminate].
  destruct (Z.eqb_spec (tag b) (tag c)) as [E2 | E2]; [| discriminate].
  cbn [negb]. rewrite <- E1. intros H1 H2.
  assert (E3 : (tag a =? tag c) = true) by (apply Z.eqb_eq; congruence).
  rewrite E3. cbn [negb].
  assert (Hin : In (tag a) Tag.enumerators).
  { apply labels_enumerators.
    destruct (in_dec Z.eq_dec (tag a) (labels switch_cases)) as [H | H];
      [assumption |].
    apply switch_None_iff in H. rewrite H in H1. discriminate. }
  split; [| split; [congruence | assumption]].
  destruct (switch (tag a) switch_cases) as [[| m] |]; try assumption.
  apply Value_eqb_eq in H1. apply Value_eqb_eq in H2.
  apply Value_eqb_eq. congruence.
Qed.

Lemma operator_eq_trans_witness :
  operator_eq (mkKeyParameter Tag.KEY_SIZE 256 [])
              (mkKeyParameter Tag.KEY_SIZE 0x700000100 []) = true /\
  Tag.KEY_SIZE = Tag.KEY_SIZE /\ In Tag.KEY_SIZE Tag.enumerators.
Proof.
  refine (operator_eq_trans
            (mkKeyParameter Tag.KEY_SIZE 256 [])
            (mkKeyParameter Tag.KEY_SIZE 0x100000100 [x01])
            (mkKeyParameter Tag.KEY_SIZE 0x700000100 []) eq_refl eq_refl).
Defined.

(** ** What [Authorization] accepts *)

Lemma Authorization_Some_inv (mem : Indeterminate) (ttag : TypedTag)
    (args : list Arg) (param : KeyParameter) :
  Authorization mem ttag args = Some param ->
  (tag_type ttag = TagType.BOOL /\ args = [] /\
   param = makeKeyParameter_bool mem ttag) \/
  (tag_type ttag <> TagType.BOOL /\
   exists a m v, args = [a] /\ accessTagValue ttag = Some m /\
                 is_convertible (type_of a) (decl_type m) = true /\
                 convert (decl_type m) a = Some v /\
                 makeKeyParameter mem ttag a = Some param).
Proof.
  unfold Authorization, TypedTag2ValueType.
  destruct (Z.eqb_spec (tag_type ttag) TagType.BOOL) as [Hb | Hb].
  - destruct args; [| discriminate]. intros [= <-]. left. now repeat split.
  - destruct args as [| a [| a' args]]; try discriminate.
    destruct (accessTagValue ttag) as [m |] eqn:Hm; [| discriminate].
    cbn [option_map].
    destruct (is_convertible (type_of a) (decl_type m)) eqn:Hcv;
      [| discriminate].
    intros H. right. split; [assumption |].
    destruct (convert (decl_type m) a) as [v |] eqn:Ecv;
      [| now apply convert_is_convertible in Hcv].
    exists a, m, v. now repeat split.
Qed.



(** ** Equality of constructed parameters *)

Lemma operator_eq_by_member (a b : KeyParameter) (m : Member) :
  In (tag a) Tag.enumerators -> tag a = tag b ->
  typeFromTag (tag a) <> TagType.BOOL ->
  accessTagValue (Tag2TypedTag (tag a)) = Some m ->
  operator_eq a b = Value_eqb (load m a) (load m b).
Proof.
  intros Hin Ht Hb Hm. rewrite (operator_eq_dispatch a b Ht).
  pose proof (branch_agrees_enumerators (tag a) Hin) as Hag.
  unfold branch_agrees in Hag. rewrite Hm in Hag.
  apply Z.eqb_neq in Hb. rewrite Hb in Hag.
  destruct (switch (tag a) switch_cases) as [[| m0] |]; try discriminate.
  cbn [negb andb] in Hag.
  assert (E : member_type m0 = member_type m).
  { destruct (member_type m0), (member_type m); try discriminate;
      try reflexivity.
    apply Z.eqb_eq in Hag. now subst. }
  now rewrite (load_same_type m0 m a E), (load_same_type m0 m b E).
Qed.

Lemma operator_eq_by_presence (a b : KeyParameter) :
  In (tag a) Tag.enumerators -> tag a = tag b ->
  typeFromTag (tag a) = TagType.BOOL ->
  operator_eq a b = true.
Proof.
  intros Hin Ht Hb. rewrite (operator_eq_dispatch a b Ht).
  pose proof (branch_agrees_enumerators (tag a) Hin) as Hag.
  unfold branch_agrees in Hag.
  rewrite (accessTagValue_BOOL (Tag2TypedTag (tag a)) Hb) in Hag.
  destruct (switch (tag a) switch_cases) as [[| m] |];
    [reflexivity | | discriminate].
  apply Z.eqb_eq in Hb. rewrite Hb in Hag. discriminate.
Qed.

Lemma Authorization_value_inv (mem : Indeterminate) (t : Z) (a : Arg)
    (param : KeyParameter) :
  typeFromTag t <> TagType.BOOL ->
  Authorization mem (Tag2TypedTag t) [a] = Some param ->
  exists m v, accessTagValue (Tag2TypedTag t) = Some m /\
              convert (decl_type m) a = Some v /\
              tag param = t /\ load m param = v /\
              f param = zero_extended v /\ blob param = blob_of v.
Proof.
  intros Hb H. apply Authorization_Some_inv in H
    as [(Hb' & _) | (_ & a0 & m & v & [= <-] & Hm & _ & Hcv & Hmk)].
  - now contradiction Hb.
  - exists m, v. destruct (makeKeyParameter_convert mem _ m a v Hm Hcv)
      as (p & Hp & Htag & Hld & Hf & Hblob).
    rewrite Hmk in Hp. injection Hp as <-. now repeat split.
Qed.

(** X5.  Two parameters built by [Authorization] for valued tags, the first
    of the closed set, are equal under [operator==] exactly when they are
    the same parameter, field by field, and exactly when they were built
    for the same tag from arguments that convert to the same value of the
    member's type; for arguments of the member's own type that is: from the
    same value.  What their storage held before has no part in it. *)
Theorem operator_eq_Authorization
    (mem mem' : Indeterminate) (t t' : Z) (a a' : Arg)
    (p q : KeyParameter) :
  In t Tag.enumerators ->
  typeFromTag t <> TagType.BOOL -> typeFromTag t' <> TagType.BOOL ->
  Authorization mem (Tag2TypedTag t) [a] = Some p ->
  Authorization mem' (Tag2TypedTag t') [a'] = Some q ->
  (operator_eq p q = true <-> p = q) /\
  (operator_eq p q = true <->
     t = t' /\
     exists m, accessTagValue (Tag2TypedTag t) = Some m /\
               convert (decl_type m) a = convert (decl_type m) a') /\
  (forall m v v',
     accessTagValue (Tag2TypedTag t) = Some m -> t' = t ->
     has_type v (member_type m) = true ->
     has_type v' (member_type m) = true ->
     a = arg_of m v -> a' = arg_of m v' ->
     (operator_eq p q = true <-> v = v')).
Proof.
  intros Hin Hb Hb' Hp Hq.
  apply Authorization_value_inv in Hp
    as (m & v & Hm & Hcv & Htag & Hld & Hf & Hblob); [| assumption].
  apply Authorization_value_inv in Hq
    as (m' & v' & Hm' & Hcv' & Htag' & Hld' & Hf' & Hblob'); [| assumption].
  assert (Hiff : operator_eq p q = true <-> t = t' /\ v = v').
  { split.
    - intros H.
      assert (Ht : tag p = tag q).
      { destruct (Z.eq_dec (tag p) (tag q)) as [E | E]; [assumption |].
        rewrite (operator_eq_tags_differ p q E) in H. discriminate. }
      assert (E : t' = t) by congruence. split; [now symmetry |].
      rewrite E, Hm in Hm'. injection Hm' as <-.
      rewrite (operator_eq_by_member p q m) in H; try congruence.
      apply Value_eqb_eq in H. congruence.
    - intros [<- <-]. rewrite Hm in Hm'. injection Hm' as <-.
      rewrite (operator_eq_by_member p q m); try congruence.
      rewrite Hld, Hld'. apply Value_eqb_refl. }
  split; [| split].
  - rewrite Hiff. split.
    + intros [<- <-]. apply KeyParameter_ext; congruence.
    + intros <-. split; [congruence |].
      assert (E : t' = t) by congruence. rewrite E, Hm in Hm'.
      injection Hm' as <-. congruence.
  - rewrite Hiff. split.
    + intros [<- <-]. split; [reflexivity |]. exists m.
      split; [assumption |]. rewrite Hm in Hm'. injection Hm' as <-.
      congruence.
    + intros [<- (m0 & Hm0 & E)]. split; [reflexivity |].
      rewrite Hm in Hm0, Hm'. injection Hm0 as <-. injection Hm' as <-.
      congruence.
  - intros m0 w w' Hm0 -> Hw Hw' -> ->. rewrite Hiff.
    rewrite Hm in Hm0, Hm'. injection Hm0 as <-. injection Hm' as <-.
    destruct (convert_arg_of m w Hw) as [_ Ew].
    destruct (convert_arg_of m w' Hw') as [_ Ew'].
    rewrite Ew in Hcv. rewrite Ew' in Hcv'.
    injection Hcv as <-. injection Hcv' as <-.
    split; [now intros [_ H] | now intros ->].
Qed.

Lemma operator_eq_Authorization_witness :
  exists p q,
    Authorization (mkIndeterminate 1 2) (Tag2TypedTag Tag.KEY_SIZE)
      [arg_int false 64 0x100000100] = Some p /\
    Authorization (mkIndeterminate 3 4) (Tag2TypedTag Tag.KEY_SIZE)
      [arg_int false 32 256] = Some q /\
    (operator_eq p q = true <-> p = q) /\
    (operator_eq p q = true <->
       Tag.KEY_SIZE = Tag.KEY_SIZE /\
       exists m, accessTagValue (Tag2TypedTag Tag.KEY_SIZE) = Some m /\
                 convert (decl_type m) (arg_int false 64 0x100000100)
                 = convert (decl_type m) (arg_int false 32 256)).
Proof.
  eexists. eexists.
  split; [vm_compute; reflexivity |]. split; [vm_compute; reflexivity |].
  assert (Hin : In Tag.KEY_SIZE Tag.enumerators)
    by (apply mem_tag_In; vm_compute; reflexivity).
  assert (Hb : typeFromTag Tag.KEY_SIZE <> TagType.BOOL)
    by (vm_compute; discriminate).
  pose proof (operator_eq_Authorization (mkIndeterminate 1 2)
                (mkIndeterminate 3 4) Tag.KEY_SIZE Tag.KEY_SIZE
                (arg_int false 64 0x100000100) (arg_int false 32 256)
                _ _ Hin Hb Hb eq_refl eq_refl) as (H1 & H2 & _).
  split; [exact H1 | exact H2].
Defined.

(** X6.  Two parameters built by [Authorization] for [BOOL] tags, the first
    of the closed set, are equal under [operator==] exactly when their tags
    are the same: what their storage held before, which the boolean overload
    leaves in place, has no part in the comparison. *)
Theorem operator_eq_Authorization_BOOL
    (mem mem' : Indeterminate) (t t' : Z) (p q : KeyParameter) :
  In t Tag.enumerators ->
  typeFromTag t = TagType.BOOL -> typeFromTag t' = TagType.BOOL ->
  Authorization mem (Tag2TypedTag t) [] = Some p ->
  Authorization mem' (Tag2TypedTag t') [] = Some q ->
  (operator_eq p q = true <-> t = t').
Proof.
  intros Hin Hb Hb' Hp Hq.
  rewrite Authorization_bool in Hp by assumption.
  rewrite Authorization_bool in Hq by assumption.
  injection Hp as <-. injection Hq as <-.
  assert (Htag : tag (makeKeyParameter_bool mem (Tag2TypedTag t)) = t)
    by reflexivity.
  assert (Htag' : tag (makeKeyParameter_bool mem' (Tag2TypedTag t')) = t')
    by reflexivity.
  split.
  - intros H. destruct (Z.eq_dec t t') as [E | E]; [assumption |].
    rewrite operator_eq_tags_differ in H by congruence. discriminate.
  - intros <-. apply operator_eq_by_presence; congruence.
Qed.

Lemma operator_eq_Authorization_BOOL_witness :
  exists p q,
    Authorization (mkIndeterminate 0 0) (Tag2TypedTag Tag.CALLER_NONCE) []
    = Some p /\
    Authorization (mkIndeterminate 0 0xffffffffffffffff)
      (Tag2TypedTag Tag.CALLER_NONCE) [] = Some q /\
    f p = 1 /\ f q = 0xffffffffffffff01 /\
    (operator_eq p q = true <-> Tag.CALLER_NONCE = Tag.CALLER_NONCE).
Proof.
  eexists. eexists.
  split; [vm_compute; reflexivity |]. split; [vm_compute; reflexivity |].
  split; [reflexivity |]. split; [reflexivity |].
  refine (operator_eq_Authorization_BOOL (mkIndeterminate 0 0)
            (mkIndeterminate 0 0xffffffffffffffff)
            Tag.CALLER_NONCE Tag.CALLER_NONCE _ _ _ eq_refl eq_refl eq_refl
            eq_refl).
  apply mem_tag_In. vm_compute. reflexivity.
Defined.

(** ** Fallback: validity and nesting *)

Section NullOrOr_nesting.
Context {internal_t : Type}.
Variable init : internal_t.

Lemma NullOrOr_isOk (head : NullOr internal_t)
    (tail : list (NullOr internal_t)) :
  isOk (NullOrOr init head tail) = existsb isOk (head :: tail).
Proof.
  revert head. induction tail as [| next rest IH]; intros head.
  - cbn [NullOrOr existsb]. destruct (isOk head) eqn:E; [assumption |].
    reflexivity.
  - cbn [NullOrOr]. change (existsb isOk (head :: next :: rest))
      with (isOk head || existsb isOk (next :: rest)).
    destruct (isOk head) eqn:E; [assumption | apply IH].
Qed.

(** An invalid result is the default wrapper, never an invalid argument. *)
Lemma NullOrOr_invalid (head : NullOr internal_t)
    (tail : list (NullOr internal_t)) :
  isOk (NullOrOr init head tail) = false ->
  NullOrOr init head tail = NullOr_null init.
Proof.
  revert head. induction tail as [| next rest IH]; intros head;
    cbn [NullOrOr]; destruct (isOk head) eqn:E.
  - congruence.
  - reflexivity.
  - congruence.
  - apply IH.
Qed.

Lemma NullOrOr_single (head : NullOr internal_t)
    (tail : list (NullOr internal_t)) :
  NullOrOr init (NullOrOr init head tail) [] = NullOrOr init head tail.
Proof.
  cbn [NullOrOr]. destruct (isOk (NullOrOr init head tail)) eqn:E;
    [reflexivity |]. symmetry. now apply NullOrOr_invalid.
Qed.

Lemma NullOrOr_nested_first (head : NullOr internal_t)
    (tail : list (NullOr internal_t)) (x : NullOr internal_t)
    (more : list (NullOr internal_t)) :
  NullOrOr init (NullOrOr init head tail) (x :: more)
  = NullOrOr init head (tail ++ x :: more).
Proof.
  revert head. induction tail as [| next rest IH]; intros head.
  - cbn [NullOrOr app]. destruct (isOk head) eqn:E; [now rewrite E |].
    reflexivity.
  - cbn [app]. change (NullOrOr init head (next :: rest))
      with (if isOk head then head else NullOrOr init next rest).
    change (NullOrOr init head (next :: rest ++ x :: more))
      with (if isOk head then head
            else NullOrOr init next (rest ++ x :: more)).
    destruct (isOk head) eqn:E; [| apply IH].
    cbn [NullOrOr]. now rewrite E.
Qed.

Lemma NullOrOr_nested_last (head : NullOr internal_t)
    (tail : list (NullOr internal_t)) (x : NullOr internal_t)
    (more : list (NullOr internal_t)) :
  NullOrOr init head (tail ++ [NullOrOr init x more])
  = NullOrOr init head (tail ++ x :: more).
Proof.
  revert head. induction tail as [| next rest IH]; intros head.
  - cbn [app]. change (NullOrOr init head [NullOrOr init x more])
      with (if isOk head then head
            else NullOrOr init (NullOrOr init x more) []).
    now rewrite NullOrOr_single.
  - cbn [app]. destruct rest; cbn [app NullOrOr] in *;
      destruct (isOk head); try reflexivity; apply IH.
Qed.
End NullOrOr_nesting.

(** X7.  [NullOrOr] returns a valid wrapper exactly when one of its
    arguments is valid; when none is, the result is the default wrapper
    [{}] and not one of the invalid arguments, so nothing an invalid
    argument carries reaches the caller. *)
Theorem NullOrOr_valid_iff {internal_t : Type} (init : internal_t)
    (head : NullOr internal_t) (tail : list (NullOr internal_t)) :
  isOk (NullOrOr init head tail) = existsb isOk (head :: tail) /\
  (isOk (NullOrOr init head tail) = true ->
     In (NullOrOr init head tail) (head :: tail)) /\
  (isOk (NullOrOr init head tail) = false ->
     NullOrOr init head tail = NullOr_null init).
Proof.
  split; [apply NullOrOr_isOk |]. split; [| apply NullOrOr_invalid].
  intros H. rewrite NullOrOr_find in *.
  destruct (find isOk (head :: tail)) as [w |] eqn:E.
  - now apply find_some in E.
  - discriminate H.
Qed.

(** X8.  Nested calls of [NullOrOr] flatten: a call whose first argument
    is itself the result of [NullOrOr], or whose last argument is, returns
    what the single call on all the arguments in order returns; and a
    result passed through [NullOrOr] alone is unchanged. *)
Theorem NullOrOr_flatten {internal_t : Type} (init : internal_t)
    (head : NullOr internal_t) (tail : list (NullOr internal_t))
    (x : NullOr internal_t) (more : list (NullOr internal_t)) :
  NullOrOr init (NullOrOr init head tail) (x :: more)
  = NullOrOr init head (tail ++ x :: more) /\
  NullOrOr init head (tail ++ [NullOrOr init x more])
  = NullOrOr init head (tail ++ x :: more) /\
  NullOrOr init (NullOrOr init head tail) [] = NullOrOr init head tail.
Proof.
  split; [apply NullOrOr_nested_first |].
  split; [apply NullOrOr_nested_last | apply NullOrOr_single].
Qed.

(** ** The default combinator *)

Lemma constructed_NullOrOr {A : Type} (head : NullOr (option A))
    (tail : list (NullOr (option A))) :
  constructed head -> Forall constructed tail ->
  constructed (NullOrOr None head tail).
Proof.
  intros Hh Ht. destruct (isOk (NullOrOr None head tail)) eqn:E.
  - assert (Hin : In (NullOrOr None head tail) (head :: tail)).
    { rewrite NullOrOr_find in *.
      destruct (find isOk (head :: tail)) as [w |] eqn:F;
        [now apply find_some in F | discriminate E]. }
    destruct Hin as [<- | Hin]; [assumption |].
    rewrite Forall_forall in Ht. now apply Ht.
  - left. now apply NullOrOr_invalid.
Qed.






(** X11.  On wrappers of references made by the constructors of [NullOr],
    [NullOrOr] followed by [defaultOr] is defined (no null pointer is
    dereferenced) and yields the value of the first valid wrapper, or the
    default when none is valid. *)
Theorem defaultOr_NullOrOr {A : Type} (head : NullOr (option A))
    (tail : list (NullOr (option A))) (def : A) :
  constructed head -> Forall constructed tail ->
  constructed (NullOrOr None head tail) /\
  defaultOr reference_deref_t (NullOrOr None head tail) def
  = match find isOk (head :: tail) with
    | Some w => value w
    | None => Some def
    end /\
  defaultOr reference_deref_t (NullOrOr None head tail) def <> None.
Proof.
  intros Hh Ht.
  pose proof (constructed_NullOrOr head tail Hh Ht) as Hc.
  split; [assumption |]. split.
  - rewrite NullOrOr_find.
    destruct (find isOk (head :: tail)) as [w |] eqn:F.
    + apply find_some in F as [_ Hok]. unfold defaultOr. now rewrite Hok.
    + reflexivity.
  - destruct Hc as [-> | [x ->]]; discriminate.
Qed.

Lemma defaultOr_NullOrOr_witness :
  constructed (NullOrOr None (NullOr_null None) [NullOr_of (Some 7)]) /\
  defaultOr reference_deref_t
    (NullOrOr None (NullOr_null None) [NullOr_of (Some 7)]) 0 = Some 7 /\
  defaultOr reference_deref_t
    (NullOrOr None (NullOr_null None) [NullOr_of (Some 7)]) 0 <> None.
Proof.
  refine (defaultOr_NullOrOr (NullOr_null None) [NullOr_of (Some 7)] 0 _ _).
  - now left.
  - constructor; [| constructor]. right. now exists 7.
Defined.

(** ** Which tags have a mapped member *)

(** X12.  Every tag of the closed set has a mapped member, [Tag::INVALID]
    alone excepted: for it no accessor exists and [Authorization] is
    rejected with any arguments.  The type of the mapped member follows the
    category: [bool] exactly for [BOOL], the byte vector exactly for
    [BYTES], 64 bits exactly for [ULONG], [ULONG_REP] and [DATE], and 32
    bits for the rest. *)
Theorem accessTagValue_enumerated (t : Z) :
  In t Tag.enumerators ->
  (accessTagValue (Tag2TypedTag t) = None <-> t = Tag.INVALID) /\
  (forall m, accessTagValue (Tag2TypedTag t) = Some m ->
     (member_type m = c_bool <-> typeFromTag t = TagType.BOOL) /\
     (member_type m = c_bytes <-> typeFromTag t = TagType.BYTES) /\
     (member_type m = c_uint 64 <->
        typeFromTag t = TagType.ULONG \/ typeFromTag t = TagType.ULONG_REP \/
        typeFromTag t = TagType.DATE) /\
     (member_type m = c_uint 32 \/ member_type m = c_uint 64 \/
      member_type m = c_bool \/ member_type m = c_bytes)) /\
  (t = Tag.INVALID ->
     forall mem args, Authorization mem (Tag2TypedTag t) args = None).
Proof.
  intros Hin. split; [| split].
  - repeat (destruct Hin as [<- | Hin]); try contradiction;
      vm_compute; split; intros H; discriminate H || reflexivity.
  - intros m Hm.
    repeat (destruct Hin as [<- | Hin]); try contradiction;
      vm_compute in Hm; try discriminate Hm; injection Hm as <-;
      vm_compute; intuition (discriminate || reflexivity).
  - intros -> mem args. unfold Authorization.
    destruct args as [| v [| v' args]]; reflexivity.
Qed.

Lemma accessTagValue_enumerated_witness :
  (accessTagValue (Tag2TypedTag Tag.USER_SECURE_ID) = None <->
   Tag.USER_SECURE_ID = Tag.INVALID) /\
  accessTagValue (Tag2TypedTag Tag.INVALID) = None.
Proof.
  split.
  - refine (proj1 (accessTagValue_enumerated Tag.USER_SECURE_ID _)).
    apply mem_tag_In. vm_compute. reflexivity.
  - refine (proj2 (proj1 (accessTagValue_enumerated Tag.INVALID _)) eq_refl).
    apply mem_tag_In. vm_compute. reflexivity.
Defined.

(** ** The list of all typed tags *)

Lemma Tag2TypedTag_injective (t t' : Z) :
  Tag2TypedTag t = Tag2TypedTag t' -> t = t'.
Proof. now intros [= _ H]. Qed.

Lemma NoDup_by_count (l : list Z) :
  forallb (fun x => Nat.eqb (count_occ Z.eq_dec l x) 1) l = true -> NoDup l.
Proof.
  intros H. apply (NoDup_count_occ' Z.eq_dec). intros x Hx.
  apply Nat.eqb_eq. revert x Hx. now apply for_all_enumerators.
Qed.

Lemma NoDup_map_Tag2TypedTag (l : list Z) :
  NoDup l -> NoDup (map Tag2TypedTag l).
Proof.
  induction 1 as [| t l Hnotin _ IH]; cbn [map]; constructor;
    [| assumption].
  intros Hin. apply in_map_iff in Hin as (t' & E & Hin).
  apply Tag2TypedTag_injective in E. now subst.
Qed.

(** X13.  [all_tags_t] lists no typed tag twice; each typed tag it lists is
    one the header declares; and of the declared typed tags it omits
    exactly one, [TAG_CONFIRMATION_TOKEN]. *)
Theorem all_tags_t_declared :
  NoDup all_tags_t /\
  (forall ttag, In ttag all_tags_t ->
     exists t, In t declared_typed_tags /\ DECLARE_TYPED_TAG t = Some ttag) /\
  (forall t, In t declared_typed_tags ->
     (In (Tag2TypedTag t) all_tags_t <-> t <> Tag.CONFIRMATION_TOKEN)).
Proof.
  unfold all_tags_t.
  match goal with |- context [map Tag2TypedTag ?l] => set (codes := l) end.
  split; [| split].
  - apply NoDup_map_Tag2TypedTag, NoDup_by_count. vm_compute. reflexivity.
  - intros ttag Hin. apply in_map_iff in Hin as (t & <- & Ht).
    exists t. split.
    + apply mem_tag_In. revert t Ht. apply for_all_enumerators.
      vm_compute. reflexivity.
    + unfold DECLARE_TYPED_TAG, TypedTag_ctor, Tag2TypedTag.
      cbn [tag_type tag_of]. now rewrite Z.eqb_refl.
  - intros t Ht.
    assert (H : Bool.eqb (mem_tag t codes)
                  (negb (t =? Tag.CONFIRMATION_TOKEN)) = true).
    { revert t Ht. apply for_all_enumerators. vm_compute. reflexivity. }
    apply Bool.eqb_prop in H. split.
    + intros Hin E. apply in_map_iff in Hin as (t' & Ht' & Hin).
      apply Tag2TypedTag_injective in Ht'. subst t'.
      apply mem_tag_In in Hin. rewrite Hin in H.
      apply Z.eqb_eq in E. rewrite E in H. discriminate.
    + intros Hne. apply in_map. apply mem_tag_In.
      apply Z.eqb_neq in Hne. now rewrite H, Hne.
Qed.

(** ** Assignment through the accessor *)

(** X14.  The accessor on a mutable parameter and the one on a constant
    parameter name the same member: after [accessTagValue(ttag, param) = v]
    on a parameter that carries the typed tag's tag, the tag is unchanged
    and [authorizationValue] of that typed tag is valid with value [v],
    whatever the member held before; a typed tag with another tag still
    reads as absent. *)
Theorem accessTagValue_assign (ttag : TypedTag) (m : Member) (v : Value)
    (param : KeyParameter) :
  accessTagValue ttag = Some m ->
  has_type v (member_type m) = true ->
  tag param = tag_of ttag ->
  exists param' w,
    store m v param = Some param' /\
    tag param' = tag param /\
    authorizationValue ttag param' = Some w /\
    isOk w = true /\ value w = Some v /\
    (forall ttag' m', accessTagValue ttag' = Some m' ->
       tag_of ttag' <> tag_of ttag ->
       authorizationValue ttag' param' = Some (NullOr_null None)).
Proof.
  intros Hm Hty Htag.
  destruct (load_store m v param Hty) as (param' & Hst & Hld & Htag').
  exists param', (NullOr_of (Some v)).
  split; [assumption |]. split; [assumption |].
  split; [| split; [reflexivity | split; [reflexivity |]]].
  - rewrite (authorizationValue_match ttag m param' Hm) by congruence.
    now rewrite Hld.
  - intros ttag' m' Hm' Hne. unfold authorizationValue. rewrite Hm'.
    assert (E : (tag_of ttag' =? tag param') = false)
      by (apply Z.eqb_neq; congruence).
    now rewrite E.
Qed.

Lemma accessTagValue_assign_witness :
  exists param' w,
    store f_integer (VUInt 128)
      (mkKeyParameter Tag.MAC_LENGTH 0xffffffff00000060 [x01])
    = Some param' /\
    tag param' = Tag.MAC_LENGTH /\
    authorizationValue (Tag2TypedTag Tag.MAC_LENGTH) param' = Some w /\
    isOk w = true /\ value w = Some (VUInt 128) /\
    (forall ttag' m', accessTagValue ttag' = Some m' ->
       tag_of ttag' <> tag_of (Tag2TypedTag Tag.MAC_LENGTH) ->
       authorizationValue ttag' param' = Some (NullOr_null None)).
Proof.
  refine (accessTagValue_assign (Tag2TypedTag Tag.MAC_LENGTH) f_integer
            (VUInt 128)
            (mkKeyParameter Tag.MAC_LENGTH 0xffffffff00000060 [x01])
            eq_refl eq_refl eq_refl).
Defined.

(** ** The boolean overload and the prior storage *)

(** X15.  [Authorization] for a [BOOL] typed tag sets the tag and the byte
    of [f.boolValue] and nothing else: the other seven bytes of the union in
    the result are those the storage held before, and the byte vector is
    empty. *)
Theorem Authorization_BOOL_keeps_storage (mem : Indeterminate)
    (ttag : TypedTag) :
  tag_type ttag = TagType.BOOL ->
  exists param,
    Authorization mem ttag [] = Some param /\
    tag param = tag_of ttag /\
    low 8 (f param) = 1 /\
    Z.shiftr (f param) 8 = Z.shiftr (low 64 (old_f mem)) 8 /\
    blob param = [].
Proof.
  intros Hb. exists (makeKeyParameter_bool mem ttag).
  split; [now apply Authorization_bool |]. split; [reflexivity |].
  split; [| split; [apply makeKeyParameter_bool_keeps_storage | reflexivity]].
  unfold makeKeyParameter_bool. cbn [f store_bool].
  now rewrite low_put by lia.
Qed.

Lemma Authorization_BOOL_keeps_storage_witness :
  exists param,
    Authorization (mkIndeterminate 0 0x1122334455667788)
      (Tag2TypedTag Tag.NO_AUTH_REQUIRED) [] = Some param /\
    tag param = Tag.NO_AUTH_REQUIRED /\
    low 8 (f param) = 1 /\
    Z.shiftr (f param) 8 = 0x11223344556677 /\
    blob param = [].
Proof.
  refine (Authorization_BOOL_keeps_storage
            (mkIndeterminate 0 0x1122334455667788)
            (Tag2TypedTag Tag.NO_AUTH_REQUIRED) eq_refl).
Defined.

(** ** Tags outside the enumeration *)

(** X16.  A parameter that [Authorization] builds for a tag outside the
    closed set, such as the header's own [KM_TAG_KEY_TYPE], carries that
    tag, and [operator==] finds it equal to no parameter, on either side,
    itself included. *)
Theorem operator_eq_Authorization_outside (mem : Indeterminate)
    (ttag : TypedTag) (args : list Arg) (param : KeyParameter) :
  ~ In (tag_of ttag) Tag.enumerators ->
  Authorization mem ttag args = Some param ->
  tag param = tag_of ttag /\
  operator_eq param param = false /\
  (forall other, operator_eq param other = false /\
                 operator_eq other param = false).
Proof.
  intros Hout H.
  assert (Htag : tag param = tag_of ttag).
  { apply Authorization_Some_inv in H
      as [(_ & _ & ->) | (_ & a & m & v & _ & Hm & _ & Hcv & Hmk)];
      [reflexivity |].
    destruct (makeKeyParameter_convert mem ttag m a v Hm Hcv)
      as (p & Hp & Ht & _).
    rewrite Hmk in Hp. now injection Hp as <-. }
  assert (E : switch (tag param) switch_cases = None).
  { apply switch_None_iff. intros Hin. apply labels_enumerators in Hin.
    rewrite Htag in Hin. contradiction. }
  assert (Hl : forall other, operator_eq param other = false).
  { intros other. unfold operator_eq. rewrite E.
    now destruct (negb (tag param =? tag other)). }
  split; [assumption |]. split; [apply Hl |].
  intros other. split; [apply Hl |].
  unfold operator_eq.
  destruct (Z.eqb_spec (tag other) (tag param)) as [Eo | Eo];
    [| reflexivity].
  cbn [negb]. now rewrite Eo, E.
Qed.

Lemma operator_eq_Authorization_outside_witness :
  exists param,
    Authorization (mkIndeterminate 0 0)
      (Tag2TypedTag KM_TAG_KEY_TYPE) [arg_int false 32 3] = Some param /\
    tag param = KM_TAG_KEY_TYPE /\
    operator_eq param param = false /\
    (forall other, operator_eq param other = false /\
                   operator_eq other param = false).
Proof.
  eexists. split; [vm_compute; reflexivity |].
  refine (operator_eq_Authorization_outside (mkIndeterminate 0 0)
            (Tag2TypedTag KM_TAG_KEY_TYPE) [arg_int false 32 3] _ _ eq_refl).
  intros H. apply mem_tag_In in H. vm_compute in H. discriminate H.
Defined.
